(** * termdash: activity classifier and transcript recorder

    A shallow embedding of [pkg/termdash/statusdetector.go] (the
    [StatusDetector]) and of the transcript recorder of the same package
    (the [TranscriptRecorder]), with the properties their specification
    states about them.

    Conventions of the embedding.
    - A Go [string] / [[]byte] is a [list byte].
    - A [time.Time] is the number of nanoseconds since Go's zero [Time]
      (January 1, year 1, 00:00:00 UTC); a [time.Duration] is a number of
      nanoseconds, saturated to the int64 range as [Time.Sub] does.
    - Every method runs under the mutex of its receiver, so a call is one
      atomic step; the step reads the clock once ([now]).
    - [go f(x)] is recorded as an element of the list of dispatched calls
      returned by the step. *)

From Stdlib Require Import ZArith List Bool Lia.
From Stdlib Require Import Strings.Byte.
From Stdlib Require Strings.String.
Import (notations) Strings.String.
Import ListNotations.
Local Open Scope Z_scope.

(** ** Go's [time] package, as far as the code uses it *)

Module GoTime.

Definition Time := Z.
Definition Duration := Z.

Definition Nanosecond : Duration := 1.
Definition Millisecond : Duration := 1000000.
Definition Second : Duration := 1000 * Millisecond.

(** The zero value of [time.Time]. *)
Definition zeroTime : Time := 0.

(** January 1, 1970 UTC on this time line: Go's [unixToInternal]
    seconds after the zero Time. *)
Definition unixToInternal : Z :=
  (1969 * 365 + 1969 / 4 - 1969 / 100 + 1969 / 400) * 86400.
Definition unixEpoch : Time := unixToInternal * Second.

Definition maxDuration : Duration := 2 ^ 63 - 1.
Definition minDuration : Duration := - 2 ^ 63.

(** [t.Sub(u)]: the difference, saturated to a Duration. *)
Definition Sub (t u : Time) : Duration :=
  Z.max minDuration (Z.min maxDuration (t - u)).

(** [time.Since(t)] when the clock reads [now]. *)
Definition Since (now t : Time) : Duration := Sub now t.

(** [t.UnixMilli()]. *)
Definition UnixMilli (t : Time) : Z := (t - unixEpoch) / Millisecond.

(** A [*time.Timer] made by [time.AfterFunc]: whether it is still
    pending, and when it is due. *)
Record Timer : Set := mkTimer { pending : bool; due : Time }.

Definition AfterFunc (now : Time) (d : Duration) : Timer :=
  mkTimer true (now + d).
(** [t.Stop()]. *)
Definition StopTimer (t : Timer) : Timer := mkTimer false (due t).

End GoTime.

(** ** Byte strings and the functions of [strings] and [regexp] in use *)

Module GoBytes.

Definition bytes := list byte.

(** A literal. *)
Definition lit (s : String.string) : bytes := String.list_byte_of_string s.
Arguments lit s%_string_scope.

Definition LF : byte := x0a.
Definition CR : byte := x0d.
Definition ESC : byte := x1b.
Definition BEL : byte := x07.

Definition code (c : byte) : N := Byte.to_N c.

Definition inRange (lo hi : N) (c : byte) : bool :=
  (N.leb lo (code c) && N.leb (code c) hi)%bool.

(** [[0-9]], [[0-9;]] and [[a-zA-Z]]. *)
Definition isDigit (c : byte) : bool := inRange 48 57 c.
Definition isParam (c : byte) : bool := (isDigit c || Byte.eqb c x3b)%bool.
Definition isAlpha (c : byte) : bool :=
  (inRange 97 122 c || inRange 65 90 c)%bool.

(** The class [\s] of Go regular expressions: [[\t\n\f\r ]]. *)
Definition isReSpace (c : byte) : bool :=
  match c with
  | x09 | x0a | x0c | x0d | x20 => true
  | _ => false
  end.

Definition bytes_eqb (s t : bytes) : bool :=
  if list_eq_dec Byte.byte_eq_dec s t then true else false.

(** [strings.HasPrefix(s, p)]. *)
Fixpoint hasPrefix (p s : bytes) : bool :=
  match p, s with
  | [], _ => true
  | _ :: _, [] => false
  | a :: p', c :: s' => (Byte.eqb a c && hasPrefix p' s')%bool
  end.

(** Some suffix of [s] satisfies [f]: an unanchored search. *)
Fixpoint existsAt (f : bytes -> bool) (s : bytes) : bool :=
  (f s ||
   match s with
   | [] => false
   | _ :: s' => existsAt f s'
   end)%bool.

(** [strings.Contains(s, p)]. *)
Definition contains (p s : bytes) : bool := existsAt (hasPrefix p) s.

(** [strings.Split(s, "\n")]: never empty. *)
Fixpoint splitLF (s : bytes) : list bytes :=
  match s with
  | [] => [[]]
  | c :: s' =>
      if Byte.eqb c LF then [] :: splitLF s'
      else match splitLF s' with
           | l :: ls => (c :: l) :: ls
           | [] => [[c]]
           end
  end.

(** [strings.Join(ls, "\n")]. *)
Fixpoint joinLF (ls : list bytes) : bytes :=
  match ls with
  | [] => []
  | [l] => l
  | l :: ls' => l ++ LF :: joinLF ls'
  end.

(** [s[len(s)-n:]] for [n <= len(s)], on any list. *)
Definition lastN {T} (n : nat) (s : list T) : list T :=
  skipn (length s - n) s.

(** [strings.ReplaceAll(s, "\r", "")]. *)
Definition removeCR (s : bytes) : bytes :=
  filter (fun c => negb (Byte.eqb c CR)) s.

(** [strings.Contains(s, "\n\n\n")]. *)
Definition hasTripleLF (s : bytes) : bool := contains [LF; LF; LF] s.

(** [strings.ReplaceAll(s, "\n\n\n", "\n\n")]: the matches are taken
    from left to right and do not overlap. *)
Fixpoint replaceTripleLF (s : bytes) : bytes :=
  match s with
  | [] => []
  | a :: s1 =>
      match s1 with
      | b :: c :: s3 =>
          if (Byte.eqb a LF && Byte.eqb b LF && Byte.eqb c LF)%bool
          then LF :: LF :: replaceTripleLF s3
          else a :: replaceTripleLF s1
      | _ => a :: replaceTripleLF s1
      end
  end.

(** *** Regular expressions

    A pattern is embedded as a function that, given the text from some
    position on, returns the length of the match that Go's
    leftmost-first search finds starting there, if there is one. *)

Definition Matcher := bytes -> option nat.

Definition orElse (m1 m2 : Matcher) : Matcher :=
  fun s => match m1 s with Some n => Some n | None => m2 s end.

(** [[0-9;]*[a-zA-Z]]: the two classes are disjoint, so the greedy
    star has one way to match. *)
Fixpoint csiTail (s : bytes) : option nat :=
  match s with
  | [] => None
  | c :: s' =>
      if isParam c then option_map S (csiTail s')
      else if isAlpha c then Some 1%nat
      else None
  end.

(** [[0-9;]*m]. *)
Fixpoint sgrTail (s : bytes) : option nat :=
  match s with
  | [] => None
  | c :: s' =>
      if isParam c then option_map S (sgrTail s')
      else if Byte.eqb c x6d then Some 1%nat
      else None
  end.

(** [[^\x07]*\x07]: up to the first BEL. *)
Fixpoint oscTail (s : bytes) : option nat :=
  match s with
  | [] => None
  | c :: s' =>
      if Byte.eqb c BEL then Some 1%nat else option_map S (oscTail s')
  end.

(** [\x1b\[[0-9;]*[a-zA-Z]] *)
Definition reCSI : Matcher := fun s =>
  match s with
  | x1b :: x5b :: s' => option_map (fun n => (2 + n)%nat) (csiTail s')
  | _ => None
  end.

(** [\x1b\][^\x07]*\x07] *)
Definition reOSC : Matcher := fun s =>
  match s with
  | x1b :: x5d :: s' => option_map (fun n => (2 + n)%nat) (oscTail s')
  | _ => None
  end.

(** [\x1b\[[0-9;]*m] *)
Definition reSGR : Matcher := fun s =>
  match s with
  | x1b :: x5b :: s' => option_map (fun n => (2 + n)%nat) (sgrTail s')
  | _ => None
  end.

(** [\x1b\[\?[0-9;]*[a-zA-Z]] *)
Definition reCSIPrivate : Matcher := fun s =>
  match s with
  | x1b :: x5b :: x3f :: s' => option_map (fun n => (3 + n)%nat) (csiTail s')
  | _ => None
  end.

(** [re.ReplaceAllString(s, "")] for a pattern that matches no empty
    string: [skip] counts the bytes of the current match still to be
    dropped. *)
Fixpoint deleteMatches (re : Matcher) (skip : nat) (s : bytes) : bytes :=
  match s with
  | [] => []
  | c :: s' =>
      match skip with
      | S k => deleteMatches re k s'
      | O =>
          match re s with
          | Some (S k) => deleteMatches re k s'
          | _ => c :: deleteMatches re O s'
          end
      end
  end.

Definition ReplaceAllEmpty (re : Matcher) (s : bytes) : bytes :=
  deleteMatches re O s.

Fixpoint dropWhile (f : byte -> bool) (s : bytes) : bytes :=
  match s with
  | [] => []
  | c :: s' => if f c then dropWhile f s' else s
  end.

(** The text ends with [p] followed by [\s*]: the patterns [p\s*$]. *)
Definition endsWithThenSpaces (p s : bytes) : bool :=
  hasPrefix (rev p) (dropWhile isReSpace (rev s)).

(** [p] occurs in the text before the next line feed: [.*p] from here. *)
Fixpoint onSameLine (p s : bytes) : bool :=
  (hasPrefix p s ||
   match s with
   | [] => false
   | c :: s' => if Byte.eqb c LF then false else onSameLine p s'
   end)%bool.

(** *** [strings.TrimSpace]

    The white space of [unicode.IsSpace], in UTF-8: the six ASCII
    characters, U+0085 and U+00A0 (two bytes), and U+1680,
    U+2000..U+200A, U+2028, U+2029, U+202F, U+205F and U+3000 (three
    bytes). A byte sequence that is not the encoding of one of them is
    not white space, also when it is not valid UTF-8. *)

Definition isAsciiSpace (c : byte) : bool :=
  match c with
  | x09 | x0a | x0b | x0c | x0d | x20 => true
  | _ => false
  end.

Definition isSpace2 (a b : byte) : bool :=
  (Byte.eqb a xc2 && (Byte.eqb b x85 || Byte.eqb b xa0))%bool.

Definition isSpace3 (a b c : byte) : bool :=
  ((Byte.eqb a xe1 && Byte.eqb b x9a && Byte.eqb c x80)
   || (Byte.eqb a xe2 && Byte.eqb b x80 &&
       (inRange 128 138 c || Byte.eqb c xa8 || Byte.eqb c xa9
        || Byte.eqb c xaf))
   || (Byte.eqb a xe2 && Byte.eqb b x81 && Byte.eqb c x9f)
   || (Byte.eqb a xe3 && Byte.eqb b x80 && Byte.eqb c x80))%bool.

(** Width of the white-space rune the text starts with, 0 if none. *)
Definition spaceWidth (s : bytes) : nat :=
  match s with
  | [] => 0
  | a :: s1 =>
      if isAsciiSpace a then 1
      else match s1 with
           | [] => 0
           | b :: s2 =>
               if isSpace2 a b then 2
               else match s2 with
                    | [] => 0
                    | c :: _ => if isSpace3 a b c then 3 else 0
                    end
           end
  end%nat.

(** The same for the rune the text ends with, on the reversed text. *)
Definition spaceWidthRev (r : bytes) : nat :=
  match r with
  | [] => 0
  | c :: r1 =>
      if isAsciiSpace c then 1
      else match r1 with
           | [] => 0
           | b :: r2 =>
               if isSpace2 b c then 2
               else match r2 with
                    | [] => 0
                    | a :: _ => if isSpace3 a b c then 3 else 0
                    end
           end
  end%nat.

(** Drop the runes recognised by [width] from the front. *)
Fixpoint trimFront (width : bytes -> nat) (skip : nat) (s : bytes) : bytes :=
  match s with
  | [] => []
  | _ :: s' =>
      match skip with
      | S k => trimFront width k s'
      | O =>
          match width s with
          | S k => trimFront width k s'
          | O => s
          end
      end
  end.

Definition TrimLeftSpace (s : bytes) : bytes := trimFront spaceWidth 0 s.
Definition TrimRightSpace (s : bytes) : bytes :=
  rev (trimFront spaceWidthRev 0 (rev s)).
Definition TrimSpace (s : bytes) : bytes :=
  TrimRightSpace (TrimLeftSpace s).

(** [strings.Repeat(".", n)]. *)
Definition RepeatDot (n : nat) : bytes := repeat x2e n.

End GoBytes.

(** ** The activity classifier: [statusdetector.go] *)

Module Detector.
Import GoTime GoBytes.

Inductive Status : Set :=
| StatusActive
| StatusNeedsInput
| StatusIdle
| StatusExited.

Definition Status_eqb (a b : Status) : bool :=
  match a, b with
  | StatusActive, StatusActive
  | StatusNeedsInput, StatusNeedsInput
  | StatusIdle, StatusIdle
  | StatusExited, StatusExited => true
  | _, _ => false
  end.

Definition IdleTimeout : Duration := 10 * Second.
Definition DebounceInterval : Duration := 500 * Millisecond.
Definition MaxLineBufferSize : nat := 4096.

(** *** The prompt patterns *)

Definition chevron : bytes := [xe2; x9d; xaf].

(** [\?\s*\(?(yes|no|y\/n)\)?] from this position. *)
Definition yesNoHere (s : bytes) : bool :=
  match s with
  | x3f :: s1 =>
      let s2 := dropWhile isReSpace s1 in
      let word t :=
        (hasPrefix (lit "yes") t || hasPrefix (lit "no") t
         || hasPrefix (lit "y/n") t)%bool in
      (match s2 with
       | x28 :: s3 => word s3
       | _ => false
       end || word s2)%bool
  | _ => false
  end.

(** [\(Y\)es.*\(N\)o] from this position. *)
Definition yesNoKeysHere (s : bytes) : bool :=
  (hasPrefix (lit "(Y)es") s && onSameLine (lit "(N)o") (skipn 5 s))%bool.

Definition promptPatterns : list (bytes -> bool) :=
  [ endsWithThenSpaces chevron;
    endsWithThenSpaces (lit ">");
    endsWithThenSpaces (lit "$");
    existsAt yesNoHere;
    contains (lit "Do you want to proceed");
    existsAt yesNoKeysHere;
    contains (lit "Press Enter to continue");
    contains (lit "[Y/n]");
    fun s => (contains (lit "waiting for input") s
              || contains (lit "waiting for response") s)%bool ].

Definition matchesPrompt (text : bytes) : bool :=
  existsb (fun pat => pat text) promptPatterns.

Definition getLastLines (text : bytes) (n : nat) : bytes :=
  let lines := splitLF text in
  if (length lines <=? n)%nat then text
  else joinLF (lastN n lines).

Definition ansiRegex : Matcher := orElse reCSI (orElse reOSC reSGR).

Definition stripAnsi (text : bytes) : bytes := ReplaceAllEmpty ansiRegex text.

(** *** The detector

    [callback] is the [StatusChangeCallback], [None] for [nil]; a call
    [go sd.callback(old, new)] is recorded as the value [f old new] of
    type [A]. *)

Section WithCallback.
Variable A : Type.

Record StatusDetector : Type := mkDetector {
  lineBuffer : bytes;
  currentStatus : Status;
  lastOutputAt : Time;
  lastChangeAt : Time;
  idleTimer : option Timer;
  callback : option (Status -> Status -> A);
  stopped : bool
}.

Definition with_status (st : Status) (at_ : Time) (sd : StatusDetector) :=
  mkDetector (lineBuffer sd) st (lastOutputAt sd) at_
             (idleTimer sd) (callback sd) (stopped sd).

Definition with_lastOutputAt (t : Time) (sd : StatusDetector) :=
  mkDetector (lineBuffer sd) (currentStatus sd) t (lastChangeAt sd)
             (idleTimer sd) (callback sd) (stopped sd).

Definition with_lineBuffer (b : bytes) (sd : StatusDetector) :=
  mkDetector b (currentStatus sd) (lastOutputAt sd) (lastChangeAt sd)
             (idleTimer sd) (callback sd) (stopped sd).

Definition with_idleTimer (t : option Timer) (sd : StatusDetector) :=
  mkDetector (lineBuffer sd) (currentStatus sd) (lastOutputAt sd)
             (lastChangeAt sd) t (callback sd) (stopped sd).

Definition with_stopped (b : bool) (sd : StatusDetector) :=
  mkDetector (lineBuffer sd) (currentStatus sd) (lastOutputAt sd)
             (lastChangeAt sd) (idleTimer sd) (callback sd) b.

(** A step returns the new detector and the goroutines it started. *)
Definition Step := (StatusDetector * list A)%type.

Definition NewStatusDetector
    (now : Time) (cb : option (Status -> Status -> A)) : StatusDetector :=
  mkDetector [] StatusActive now zeroTime
             (Some (AfterFunc now IdleTimeout)) cb false.

Definition setStatus
    (now : Time) (newStatus : Status) (sd : StatusDetector) : Step :=
  if Status_eqb newStatus (currentStatus sd) then (sd, [])
  else if Since now (lastChangeAt sd) <? DebounceInterval then (sd, [])
  else
    let oldStatus := currentStatus sd in
    let sd' := with_status newStatus now sd in
    match callback sd with
    | Some f => (sd', [f oldStatus newStatus])
    | None => (sd', [])
    end.

(** The function given to [time.AfterFunc] by [startIdleTimer] and by
    [resetIdleTimer] (the two are the same), run when the timer
    fires. *)
Definition idleTimerFunc (now : Time) (sd : StatusDetector) : Step :=
  if stopped sd then (sd, [])
  else if (Status_eqb (currentStatus sd) StatusActive
           && (IdleTimeout <=? Since now (lastOutputAt sd)))%bool
  then setStatus now StatusIdle sd
  else (sd, []).

Definition resetIdleTimer (now : Time) (sd : StatusDetector) : StatusDetector :=
  let sd1 := with_idleTimer (option_map StopTimer (idleTimer sd)) sd in
  if negb (stopped sd1)
  then with_idleTimer (Some (AfterFunc now IdleTimeout)) sd1
  else sd1.

Definition ProcessOutput
    (now : Time) (data : bytes) (sd : StatusDetector) : Step :=
  if stopped sd then (sd, [])
  else
    let sd1 := with_lastOutputAt now sd in
    let sd2 := resetIdleTimer now sd1 in
    let buf := lineBuffer sd2 ++ data in
    let buf' :=
      if (MaxLineBufferSize <? length buf)%nat
      then lastN MaxLineBufferSize buf else buf in
    let sd3 := with_lineBuffer buf' sd2 in
    let lastLines := getLastLines (lineBuffer sd3) 3 in
    let stripped := stripAnsi lastLines in
    if matchesPrompt stripped
    then setStatus now StatusNeedsInput sd3
    else setStatus now StatusActive sd3.

Definition SetExited (now : Time) (sd : StatusDetector) : Step :=
  setStatus now StatusExited sd.

Definition Stop (sd : StatusDetector) : Step :=
  let sd1 := with_stopped true sd in
  (with_idleTimer (option_map StopTimer (idleTimer sd1)) sd1, []).

Definition GetStatus (sd : StatusDetector) : Status := currentStatus sd.

(** What can happen to a detector: the public calls, and the idle
    timer's function being run by the runtime. *)
Inductive Event : Type :=
| EvProcessOutput (data : bytes)
| EvSetExited
| EvStop
| EvIdleTimer.

Definition step (now : Time) (e : Event) (sd : StatusDetector) : Step :=
  match e with
  | EvProcessOutput data => ProcessOutput now data sd
  | EvSetExited => SetExited now sd
  | EvStop => Stop sd
  | EvIdleTimer => idleTimerFunc now sd
  end.

(** A run: each event with the clock reading at which it happens. *)
Fixpoint run (evs : list (Time * Event)) (sd : StatusDetector) : Step :=
  match evs with
  | [] => (sd, [])
  | (now, e) :: evs' =>
      let (sd1, out1) := step now e sd in
      let (sd2, out2) := run evs' sd1 in
      (sd2, out1 ++ out2)
  end.

(** The detectors a program can hold: made by [NewStatusDetector] on
    a clock that reads no time before 1970, then driven by events on
    a clock that does not go back. [Reachable t sd]: [sd] is
    reachable, the last clock reading being [t]. *)
Inductive Reachable : Time -> StatusDetector -> Prop :=
| Reach_new now cb :
    unixEpoch <= now ->
    Reachable now (NewStatusDetector now cb)
| Reach_step t sd now e :
    Reachable t sd ->
    t <= now ->
    Reachable now (fst (step now e sd)).

End WithCallback.

Arguments lineBuffer {A} _.
Arguments currentStatus {A} _.
Arguments lastOutputAt {A} _.
Arguments lastChangeAt {A} _.
Arguments idleTimer {A} _.
Arguments callback {A} _.
Arguments stopped {A} _.
Arguments mkDetector {A} _ _ _ _ _ _ _.
Arguments with_status {A} _ _ _.
Arguments NewStatusDetector {A} _ _.
Arguments setStatus {A} _ _ _.
Arguments idleTimerFunc {A} _ _.
Arguments resetIdleTimer {A} _ _.
Arguments ProcessOutput {A} _ _ _.
Arguments SetExited {A} _ _.
Arguments Stop {A} _.
Arguments GetStatus {A} _.
Arguments step {A} _ _ _.
Arguments run {A} _ _.
Arguments Reachable {A} _ _.

End Detector.

(** ** The transcript recorder *)

Module Recorder.
Import GoTime GoBytes.

(** Go's [int] is 64 bits wide: arithmetic on it wraps around. *)
Definition wrapInt (z : Z) : Z := (z + 2 ^ 63) mod 2 ^ 64 - 2 ^ 63.
Definition maxInt : Z := 2 ^ 63 - 1.

(** [len(s)]. *)
Definition len (s : bytes) : Z := Z.of_nat (length s).

Definition TranscriptFlushThreshold : Z := 1024.
Definition TranscriptFlushInterval : Duration := 5 * Second.

Record TranscriptEntry : Set := mkEntry {
  Timestamp : Z;
  Kind : bytes;      (* the field [Type]: "output" or "input" *)
  Text : bytes
}.

(** *** Cleaning *)

Definition transcriptAnsiRegex : Matcher :=
  orElse reCSI (orElse reOSC (orElse reSGR reCSIPrivate)).

(** The loop [for strings.Contains(cleaned, "\n\n\n") { cleaned =
    strings.ReplaceAll(cleaned, "\n\n\n", "\n\n") }], run for at most
    [fuel] rounds. *)
Fixpoint collapseLoop (fuel : nat) (s : bytes) : bytes :=
  if hasTripleLF s then
    match fuel with
    | O => s
    | S fuel' => collapseLoop fuel' (replaceTripleLF s)
    end
  else s.

(** Each round shortens the text, so [length s] rounds are enough (see
    [collapseLoop_done] below). *)
Definition collapseBlankLines (s : bytes) : bytes :=
  collapseLoop (length s) s.

Definition cleanForTranscript (text : bytes) : bytes :=
  let cleaned := ReplaceAllEmpty transcriptAnsiRegex text in
  let cleaned := removeCR cleaned in
  let cleaned := collapseBlankLines cleaned in
  TrimSpace cleaned.

(** *** The animation patterns *)

(** Width of the rune of the class
    [[\s⠋⠙⠹⠸⠼⠴⠦⠧⠇⠏⣾⣽⣻⢿⡿⣟⣯⣷|/\-\\]] the text starts with, 0 if none. *)
Definition isSpinnerGlyph (a b c : byte) : bool :=
  match a, b, c with
  | xe2, xa0, (x8b | x99 | xb9 | xb8 | xbc | xb4 | xa6 | xa7 | x87 | x8f) => true
  | xe2, xa3, (xbe | xbd | xbb | x9f | xaf | xb7) => true
  | xe2, xa2, xbf => true
  | xe2, xa1, xbf => true
  | _, _, _ => false
  end.

Definition spinnerWidth (s : bytes) : nat :=
  match s with
  | [] => 0
  | a :: s1 =>
      if (isReSpace a || Byte.eqb a x7c || Byte.eqb a x2f
          || Byte.eqb a x2d || Byte.eqb a x5c)%bool then 1
      else match s1 with
           | b :: c :: _ => if isSpinnerGlyph a b c then 3 else 0
           | _ => 0
           end
  end%nat.

Fixpoint allSpinner (skip : nat) (s : bytes) : bool :=
  match s with
  | [] => true
  | _ :: s' =>
      match skip with
      | S k => allSpinner k s'
      | O =>
          match spinnerWidth s with
          | S k => allSpinner k s'
          | O => false
          end
      end
  end.

(** [^[...]+$] *)
Definition reSpinner (s : bytes) : bool :=
  match s with
  | [] => false
  | _ :: _ => allSpinner 0 s
  end.

(** [^\s*\d+%] *)
Definition reProgress (s : bytes) : bool :=
  match dropWhile isReSpace s with
  | c :: s1 =>
      (isDigit c &&
       match dropWhile isDigit s1 with
       | x25 :: _ => true
       | _ => false
       end)%bool
  | [] => false
  end.

Definition animationPatterns : list (bytes -> bool) := [reSpinner; reProgress].

Definition isAnimationFrame (text : bytes) : bool :=
  existsb (fun pat => pat text) animationPatterns.

(** *** The recorder

    [jsonMarshal] stands for [json.Marshal] on a [TranscriptEntry],
    [None] when it returns an error; [flushFn] is the
    [TranscriptFlushFunc], [None] for [nil]; a call [go tr.flushFn(lines)]
    is recorded as the value [f lines] of type [A]. *)

Section WithCollaborators.
Variable A : Type.
Variable jsonMarshal : TranscriptEntry -> option bytes.

Record TranscriptRecorder : Type := mkRecorder {
  buffer : list TranscriptEntry;
  bufferBytes : Z;
  flushFn : option (bytes -> A);
  flushTimer : option Timer;
  stopped : bool;
  lastOutput : bytes;
  dupCount : Z
}.

Definition with_buffer (b : list TranscriptEntry) (n : Z)
    (tr : TranscriptRecorder) :=
  mkRecorder b n (flushFn tr) (flushTimer tr) (stopped tr)
             (lastOutput tr) (dupCount tr).

Definition with_flushTimer (t : option Timer) (tr : TranscriptRecorder) :=
  mkRecorder (buffer tr) (bufferBytes tr) (flushFn tr) t (stopped tr)
             (lastOutput tr) (dupCount tr).

Definition with_stopped (b : bool) (tr : TranscriptRecorder) :=
  mkRecorder (buffer tr) (bufferBytes tr) (flushFn tr) (flushTimer tr) b
             (lastOutput tr) (dupCount tr).

Definition with_lastOutput (s : bytes) (tr : TranscriptRecorder) :=
  mkRecorder (buffer tr) (bufferBytes tr) (flushFn tr) (flushTimer tr)
             (stopped tr) s (dupCount tr).

Definition with_dupCount (n : Z) (tr : TranscriptRecorder) :=
  mkRecorder (buffer tr) (bufferBytes tr) (flushFn tr) (flushTimer tr)
             (stopped tr) (lastOutput tr) n.

(** A step returns the new recorder and the goroutines it started. *)
Definition Step := (TranscriptRecorder * list A)%type.

(** The JSONL text of a buffer: the loop of [flush]. *)
Fixpoint serialize (entries : list TranscriptEntry) : bytes :=
  match entries with
  | [] => []
  | entry :: rest =>
      match jsonMarshal entry with
      | None => serialize rest
      | Some jsonLine => jsonLine ++ LF :: serialize rest
      end
  end.

Definition flush (tr : TranscriptRecorder) : Step :=
  match buffer tr with
  | [] => (tr, [])
  | _ :: _ =>
      let lines := serialize (buffer tr) in
      let tr' := with_buffer [] 0 tr in
      match lines, flushFn tr with
      | _ :: _, Some f => (tr', [f lines])
      | _, _ => (tr', [])
      end
  end.

Definition startFlushTimer (now : Time) (tr : TranscriptRecorder) :=
  with_flushTimer (Some (AfterFunc now TranscriptFlushInterval)) tr.

Definition NewTranscriptRecorder
    (now : Time) (fn : option (bytes -> A)) : TranscriptRecorder :=
  startFlushTimer now (mkRecorder [] 0 fn None false [] 0).

(** The function given to [time.AfterFunc] by [startFlushTimer]. *)
Definition flushTimerFunc (now : Time) (tr : TranscriptRecorder) : Step :=
  if stopped tr then (tr, [])
  else
    let (tr1, out) := flush tr in
    (startFlushTimer now tr1, out).

Definition repeatedText (n : Z) : bytes :=
  lit "[repeated " ++ RepeatDot (Z.to_nat n) ++ lit "]".

(** The tail of [RecordOutput] and of [RecordInput]: append the entry,
    count its bytes, flush at the threshold. *)
Definition appendEntry (entry : TranscriptEntry) (tr : TranscriptRecorder)
    : Step :=
  let tr1 := with_buffer (buffer tr ++ [entry])
                         (wrapInt (bufferBytes tr + len (Text entry))) tr in
  if TranscriptFlushThreshold <=? bufferBytes tr1 then flush tr1
  else (tr1, []).

Definition RecordOutput
    (now : Time) (data : bytes) (tr : TranscriptRecorder) : Step :=
  if stopped tr then (tr, [])
  else
    let cleaned := cleanForTranscript data in
    match cleaned with
    | [] => (tr, [])
    | _ :: _ =>
        if (isAnimationFrame cleaned && bytes_eqb cleaned (lastOutput tr))%bool
        then (with_dupCount (wrapInt (dupCount tr + 1)) tr, [])
        else
          let tr1 :=
            if 0 <? dupCount tr then
              with_dupCount 0
                (with_buffer
                   (buffer tr ++
                    [mkEntry (UnixMilli now) (lit "output")
                             (repeatedText (dupCount tr))])
                   (bufferBytes tr) tr)
            else tr in
          let tr2 := with_lastOutput cleaned tr1 in
          appendEntry (mkEntry (UnixMilli now) (lit "output") cleaned) tr2
    end.

(** The test of [RecordInput] for a control keystroke. *)
Definition isControlKey (text : bytes) : bool :=
  match text with
  | [c] => (N.ltb (code c) 32 && negb (Byte.eqb c LF)
            && negb (Byte.eqb c CR))%bool
  | _ => false
  end.

Definition RecordInput
    (now : Time) (data : bytes) (tr : TranscriptRecorder) : Step :=
  if stopped tr then (tr, [])
  else
    let text := data in
    if isControlKey text then (tr, [])
    else appendEntry (mkEntry (UnixMilli now) (lit "input") text) tr.

Definition Stop (tr : TranscriptRecorder) : Step :=
  let tr1 := with_stopped true tr in
  let tr2 := with_flushTimer (option_map StopTimer (flushTimer tr1)) tr1 in
  flush tr2.

Inductive Event : Type :=
| EvRecordOutput (data : bytes)
| EvRecordInput (data : bytes)
| EvFlushTimer
| EvStop.

Definition step (now : Time) (e : Event) (tr : TranscriptRecorder) : Step :=
  match e with
  | EvRecordOutput data => RecordOutput now data tr
  | EvRecordInput data => RecordInput now data tr
  | EvFlushTimer => flushTimerFunc now tr
  | EvStop => Stop tr
  end.

Fixpoint run (evs : list (Time * Event)) (tr : TranscriptRecorder) : Step :=
  match evs with
  | [] => (tr, [])
  | (now, e) :: evs' =>
      let (tr1, out1) := step now e tr in
      let (tr2, out2) := run evs' tr1 in
      (tr2, out1 ++ out2)
  end.

End WithCollaborators.

Arguments buffer {A} _.
Arguments bufferBytes {A} _.
Arguments flushFn {A} _.
Arguments flushTimer {A} _.
Arguments stopped {A} _.
Arguments lastOutput {A} _.
Arguments dupCount {A} _.
Arguments mkRecorder {A} _ _ _ _ _ _ _.
Arguments with_buffer {A} _ _ _.
Arguments with_flushTimer {A} _ _.
Arguments with_stopped {A} _ _.
Arguments with_lastOutput {A} _ _.
Arguments with_dupCount {A} _ _.
Arguments flush {A} _ _.
Arguments startFlushTimer {A} _ _.
Arguments NewTranscriptRecorder {A} _ _.
Arguments flushTimerFunc {A} _ _ _.
Arguments appendEntry {A} _ _ _.
Arguments RecordOutput {A} _ _ _ _.
Arguments RecordInput {A} _ _ _ _.
Arguments Stop {A} _ _.
Arguments step {A} _ _ _ _.
Arguments run {A} _ _ _.

End Recorder.

(** * Properties *)

Module GoTimeFacts.
Import GoTime.

Lemma Since_lt_iff now t d :
  minDuration < d <= maxDuration ->
  Since now t < d <-> now - t < d.
Proof. unfold Since, Sub. lia. Qed.

Lemma Since_ge_iff now t d :
  minDuration < d <= maxDuration ->
  d <= Since now t <-> d <= now - t.
Proof. unfold Since, Sub. lia. Qed.

Lemma Since_mono now t u : t <= u -> Since now u <= Since now t.
Proof. unfold Since, Sub. lia. Qed.


End GoTimeFacts.

Module DetectorFacts.
Import GoTime GoBytes Detector GoTimeFacts.

Lemma Status_eqb_eq a b : Status_eqb a b = true <-> a = b.
Proof. destruct a, b; simpl; split; congruence. Qed.

Lemma Status_eqb_neq a b : Status_eqb a b = false <-> a <> b.
Proof. destruct a, b; simpl; split; congruence. Qed.

Lemma Status_eqb_refl a : Status_eqb a a = true.
Proof. now destruct a. Qed.

Lemma IdleTimeout_value : IdleTimeout = 10000000000.
Proof. reflexivity. Qed.

Lemma DebounceInterval_value : DebounceInterval = 500000000.
Proof. reflexivity. Qed.

Section Facts.
Context {A : Type}.
Implicit Types (sd : StatusDetector A) (now t : Time) (s : Status).

(** The three outcomes of the debounced setter. *)
Lemma setStatus_same sd now s :
  s = currentStatus sd -> setStatus now s sd = (sd, []).
Proof.
  intros ->. unfold setStatus. now rewrite Status_eqb_refl.
Qed.

Lemma setStatus_debounce sd now s :
  Since now (lastChangeAt sd) < DebounceInterval ->
  setStatus now s sd = (sd, []).
Proof.
  intros H. unfold setStatus.
  destruct (Status_eqb s (currentStatus sd)); [reflexivity|].
  apply Z.ltb_lt in H. now rewrite H.
Qed.

Lemma setStatus_commit sd now s :
  s <> currentStatus sd ->
  DebounceInterval <= Since now (lastChangeAt sd) ->
  setStatus now s sd =
    (with_status s now sd,
     match callback sd with
     | Some f => [f (currentStatus sd) s]
     | None => []
     end).
Proof.
  intros Hs Hd. unfold setStatus.
  apply Status_eqb_neq in Hs. rewrite Hs.
  apply Z.ltb_ge in Hd. rewrite Hd.
  now destruct (callback sd).
Qed.

(** Whatever the outcome, the setter changes only the status and the
    time of the last change. *)
Lemma setStatus_cases sd now s :
  setStatus now s sd = (sd, []) \/
  (s <> currentStatus sd /\
   DebounceInterval <= Since now (lastChangeAt sd) /\
   setStatus now s sd =
     (with_status s now sd,
      match callback sd with
      | Some f => [f (currentStatus sd) s]
      | None => []
      end)).
Proof.
  destruct (Status_eqb s (currentStatus sd)) eqn:E.
  - left. apply setStatus_same. now apply Status_eqb_eq.
  - apply Status_eqb_neq in E.
    destruct (Z.lt_ge_cases (Since now (lastChangeAt sd)) DebounceInterval).
    + left. now apply setStatus_debounce.
    + right. repeat split; trivial. now apply setStatus_commit.
Qed.

Lemma setStatus_stopped sd now s :
  stopped (fst (setStatus now s sd)) = stopped sd.
Proof.
  destruct (setStatus_cases sd now s) as [-> | (_ & _ & ->)]; reflexivity.
Qed.

Lemma setStatus_callback sd now s :
  callback (fst (setStatus now s sd)) = callback sd.
Proof.
  destruct (setStatus_cases sd now s) as [-> | (_ & _ & ->)]; reflexivity.
Qed.

Lemma setStatus_lastOutputAt sd now s :
  lastOutputAt (fst (setStatus now s sd)) = lastOutputAt sd.
Proof.
  destruct (setStatus_cases sd now s) as [-> | (_ & _ & ->)]; reflexivity.
Qed.


(** C1. With a callback registered, the debounced setter updates the
    status and dispatches exactly one notification, carrying the
    previous and the new status, if and only if the candidate differs
    from the current status and at least the debounce interval has
    passed since the last accepted change; otherwise it does nothing
    at all. A candidate that arrives within the debounce interval of
    an accepted one is therefore discarded. *)
Theorem setStatus_accepts_iff
    sd (f : Status -> Status -> A) now s :
  callback sd = Some f ->
  (setStatus now s sd = (with_status s now sd, [f (currentStatus sd) s])
   <-> s <> currentStatus sd /\
       DebounceInterval <= Since now (lastChangeAt sd))
  /\ (~ (s <> currentStatus sd /\
         DebounceInterval <= Since now (lastChangeAt sd)) ->
      setStatus now s sd = (sd, []))
  /\ (forall now2 s2,
        s <> currentStatus sd ->
        DebounceInterval <= Since now (lastChangeAt sd) ->
        Since now2 now < DebounceInterval ->
        setStatus now2 s2 (fst (setStatus now s sd))
        = (fst (setStatus now s sd), [])).
Proof.
  intros Hcb. split; [split|split].
  - intros E.
    destruct (setStatus_cases sd now s) as [E' | (H1 & H2 & _)];
      [|now split].
    rewrite E' in E. discriminate E.
  - intros [H1 H2]. rewrite (setStatus_commit sd now s H1 H2).
    now rewrite Hcb.
  - intros N.
    destruct (setStatus_cases sd now s) as [E' | (H1 & H2 & _)];
      [exact E'|].
    exfalso. apply N. now split.
  - intros now2 s2 H1 H2 H3.
    rewrite (setStatus_commit sd now s H1 H2). simpl fst.
    now apply setStatus_debounce.
Qed.

(** Without a callback the accepted change is made all the same, and
    nothing is dispatched. *)
Lemma setStatus_nil_callback sd now s :
  callback sd = None -> snd (setStatus now s sd) = [].
Proof.
  intros Hcb.
  destruct (setStatus_cases sd now s) as [-> | (_ & _ & ->)];
    [reflexivity|]. now rewrite Hcb.
Qed.

(** *** The idle timer *)

Lemma idleTimerFunc_cases sd now :
  idleTimerFunc now sd = (sd, []) \/
  (stopped sd = false /\ currentStatus sd = StatusActive /\
   IdleTimeout <= Since now (lastOutputAt sd) /\
   idleTimerFunc now sd = setStatus now StatusIdle sd).
Proof.
  unfold idleTimerFunc. destruct (stopped sd); [now left|].
  destruct (Status_eqb (currentStatus sd) StatusActive) eqn:E;
    [|now left].
  destruct (IdleTimeout <=? Since now (lastOutputAt sd)) eqn:L;
    [|now left].
  right. apply Status_eqb_eq in E. apply Z.leb_le in L. now repeat split.
Qed.

(** What every reachable detector satisfies: the last output is not
    in the future, and while the status is Active the last accepted
    change is not later than the last output. *)
Definition Inv t sd : Prop :=
  0 <= lastOutputAt sd <= t /\
  (currentStatus sd = StatusActive -> lastChangeAt sd <= lastOutputAt sd).

Lemma Inv_setStatus t sd now s :
  Inv t sd -> t <= now ->
  (s = StatusActive -> lastOutputAt sd = now) ->
  Inv now (fst (setStatus now s sd)).
Proof.
  intros [H1 H2] Ht Hs.
  destruct (setStatus_cases sd now s) as [-> | (_ & _ & ->)]; simpl.
  - split; [lia|exact H2].
  - unfold Inv. simpl. split; [lia|]. intros E. rewrite (Hs E). lia.
Qed.

Lemma Inv_reachable t sd : Reachable t sd -> Inv t sd.
Proof.
  induction 1 as [now cb Hn | t sd now e _ IH Ht].
  - unfold Inv; simpl. change unixEpoch with 62135596800000000000 in Hn.
    unfold zeroTime. lia.
  - destruct e; simpl step.
    + unfold ProcessOutput. destruct (stopped sd) eqn:St.
      { destruct IH as [H1 H2]. unfold Inv. simpl. split; [lia|exact H2]. }
      match goal with
      | |- Inv _ (fst (if ?c then _ else _)) => destruct c
      end;
        (eapply (Inv_setStatus now); [|lia|];
         [ unfold resetIdleTimer; simpl; rewrite St; simpl;
           destruct IH as [H1 H2]; unfold Inv; simpl; split;
           [lia|intros E; specialize (H2 E); lia]
         | intros _; unfold resetIdleTimer; simpl; rewrite St;
           reflexivity ]).
    + unfold SetExited. apply (Inv_setStatus t); trivial. discriminate.
    + destruct IH as [H1 H2]. unfold Inv. simpl. split; [lia|exact H2].
    + destruct (idleTimerFunc_cases sd now) as [-> | (_ & _ & _ & ->)].
      * destruct IH as [H1 H2]. unfold Inv. simpl. split; [lia|exact H2].
      * apply (Inv_setStatus t); trivial. discriminate.
Qed.

(** C2. On a detector that has not been stopped, the idle timer's
    function moves the status to Idle exactly when the status is
    Active and the last output lies at least the idle timeout back;
    and no step at all enters Idle from another status than Active. *)
Theorem idle_iff_active_and_quiet t sd now :
  Reachable t sd -> t <= now -> stopped sd = false ->
  (currentStatus (fst (idleTimerFunc now sd)) = StatusIdle /\
   currentStatus sd <> StatusIdle
   <-> currentStatus sd = StatusActive /\
       IdleTimeout <= Since now (lastOutputAt sd))
  /\ (forall e,
        currentStatus (fst (step now e sd)) = StatusIdle ->
        currentStatus sd <> StatusIdle ->
        e = EvIdleTimer /\ currentStatus sd = StatusActive /\
        IdleTimeout <= Since now (lastOutputAt sd)).
Proof.
  intros HR Ht Hst. split; [split|].
  - intros [H1 H2].
    destruct (idleTimerFunc_cases sd now) as [E | (_ & Ha & Hq & _)];
      [|now split].
    rewrite E in H1. now elim H2.
  - intros [Ha Hq]. split; [|rewrite Ha; discriminate].
    destruct (Inv_reachable t sd HR) as [_ Hinv].
    specialize (Hinv Ha).
    unfold idleTimerFunc. rewrite Hst, Ha. simpl Status_eqb.
    apply Z.leb_le in Hq as Hq'. rewrite Hq'. simpl andb.
    rewrite setStatus_commit; [reflexivity|rewrite Ha; discriminate|].
    pose proof (Since_mono now _ _ Hinv).
    rewrite IdleTimeout_value in Hq. rewrite DebounceInterval_value. lia.
  - intros e H1 H2. destruct e; simpl step in H1.
    + exfalso. unfold ProcessOutput in H1. rewrite Hst in H1.
      match type of H1 with
      | currentStatus (fst (if ?c then _ else _)) = _ => destruct c
      end;
        match type of H1 with
        | currentStatus (fst (setStatus ?n ?s ?d)) = _ =>
            destruct (setStatus_cases d n s) as [E | (_ & _ & E)];
            rewrite E in H1; simpl in H1
        end;
        try discriminate H1; unfold resetIdleTimer in H1;
        simpl in H1; rewrite Hst in H1; simpl in H1; now apply H2.
    + exfalso. unfold SetExited in H1.
      destruct (setStatus_cases sd now StatusExited) as [E | (_ & _ & E)];
        rewrite E in H1; simpl in H1; [now apply H2|discriminate H1].
    + exfalso. simpl in H1. now apply H2.
    + destruct (idleTimerFunc_cases sd now) as [E | (_ & Ha & Hq & _)];
        [|now repeat split].
      rewrite E in H1. now elim H2.
Qed.

(** *** After [Stop] *)

Lemma ProcessOutput_stopped sd now data :
  stopped sd = true -> ProcessOutput now data sd = (sd, []).
Proof. intros H. unfold ProcessOutput. now rewrite H. Qed.

Lemma idleTimerFunc_stopped sd now :
  stopped sd = true -> idleTimerFunc now sd = (sd, []).
Proof. intros H. unfold idleTimerFunc. now rewrite H. Qed.

Lemma Stop_stopped sd : stopped (fst (Stop sd)) = true.
Proof. reflexivity. Qed.

Lemma Stop_again_noop sd : Stop (fst (Stop sd)) = (fst (Stop sd), []).
Proof.
  unfold Stop. simpl. unfold with_idleTimer, with_stopped. simpl.
  destruct (idleTimer sd) as [[p d]|]; reflexivity.
Qed.

(** [SetExited] does not look at the [stopped] flag: on a stopped
    detector it is the debounced setter as before. *)
Lemma SetExited_ignores_stopped sd now :
  SetExited now sd = setStatus now StatusExited sd.
Proof. reflexivity. Qed.

(** *** Exited *)

Lemma idleTimerFunc_not_active sd now :
  currentStatus sd <> StatusActive -> idleTimerFunc now sd = (sd, []).
Proof.
  intros H.
  destruct (idleTimerFunc_cases sd now) as [E | (_ & Ha & _)];
    [exact E|contradiction].
Qed.

Lemma idle_timers_keep_status sd (ts : list Time) :
  currentStatus sd <> StatusActive ->
  run (map (fun t => (t, EvIdleTimer)) ts) sd = (sd, []).
Proof.
  intros H. induction ts as [|t ts IH]; [reflexivity|].
  simpl. rewrite (idleTimerFunc_not_active sd t H). now rewrite IH.
Qed.

(** C4, as the code has it. From Active, NeedsInput or Idle,
    [SetExited] commits Exited when at least the debounce interval has
    passed since the last accepted change, and is discarded (the
    detector is left as it was) within the interval. Once Exited is
    committed, no number of idle-timer firings changes the status or
    dispatches anything. *)
Theorem SetExited_commits_after_debounce sd now :
  currentStatus sd <> StatusExited ->
  (DebounceInterval <= Since now (lastChangeAt sd) ->
   currentStatus (fst (SetExited now sd)) = StatusExited /\
   forall ts : list Time,
     run (map (fun t => (t, EvIdleTimer)) ts) (fst (SetExited now sd))
     = (fst (SetExited now sd), []))
  /\ (Since now (lastChangeAt sd) < DebounceInterval ->
      SetExited now sd = (sd, [])).
Proof.
  intros Hne. split.
  - intros Hd. unfold SetExited.
    rewrite setStatus_commit; [|congruence|exact Hd]. simpl.
    split; [reflexivity|]. intros ts.
    now apply idle_timers_keep_status.
  - intros Hd. now apply setStatus_debounce.
Qed.

(** *** Before the first accepted change *)

Lemma step_callback sd now e :
  callback (fst (step now e sd)) = callback sd.
Proof.
  destruct e; simpl step.
  - unfold ProcessOutput. destruct (stopped sd) eqn:St; [reflexivity|].
    match goal with
    | |- callback (fst (if ?c then _ else _)) = _ => destruct c
    end; rewrite setStatus_callback; unfold resetIdleTimer; simpl;
      rewrite St; reflexivity.
  - apply setStatus_callback.
  - reflexivity.
  - destruct (idleTimerFunc_cases sd now) as [-> | (_ & _ & _ & ->)];
      [reflexivity|apply setStatus_callback].
Qed.




End Facts.

(** *** Concrete runs *)

(** The callback of the examples records the pair it is called with. *)
Definition note (oldStatus newStatus : Status) : Status * Status :=
  (oldStatus, newStatus).

(** A detector created at the first instant of 1970. *)
Definition fresh : StatusDetector (Status * Status) :=
  NewStatusDetector unixEpoch (Some note).

(** One second later the output ends in the prompt "❯ ". *)
Definition atPrompt : StatusDetector (Status * Status) :=
  fst (ProcessOutput (unixEpoch + Second) (chevron ++ [x20]) fresh).

Definition afterStop : StatusDetector (Status * Status) :=
  fst (Stop fresh).

Lemma setStatus_accepts_iff_witness :
  callback fresh = Some note /\
  setStatus (unixEpoch + Second) StatusNeedsInput fresh
  = (with_status StatusNeedsInput (unixEpoch + Second) fresh,
     [(StatusActive, StatusNeedsInput)]).
Proof.
  split; [reflexivity|].
  destruct (setStatus_accepts_iff fresh note (unixEpoch + Second)
              StatusNeedsInput eq_refl) as [[_ H] _].
  apply H. split; [discriminate|vm_compute; discriminate].
Defined.

Lemma idle_iff_active_and_quiet_witness :
  stopped fresh = false /\
  currentStatus (fst (idleTimerFunc (unixEpoch + IdleTimeout) fresh))
  = StatusIdle.
Proof.
  split; [reflexivity|].
  assert (HR : Reachable unixEpoch fresh)
    by (apply Reach_new; apply Z.le_refl).
  assert (Ht : unixEpoch <= unixEpoch + IdleTimeout)
    by (vm_compute; discriminate).
  destruct (idle_iff_active_and_quiet unixEpoch fresh _ HR Ht eq_refl)
    as [[_ H] _].
  apply H. split; [reflexivity|vm_compute; discriminate].
Defined.

(** C3, at a concrete input: after [Stop], [ProcessOutput] and [Stop]
    change nothing, but [SetExited] still commits Exited and dispatches
    the notification. *)
Lemma SetExited_after_Stop_changes_status :
  stopped afterStop = true /\
  ProcessOutput (unixEpoch + Second) (chevron ++ [x20]) afterStop
  = (afterStop, []) /\
  Stop afterStop = (afterStop, []) /\
  currentStatus afterStop = StatusActive /\
  SetExited (unixEpoch + Second) afterStop
  = (with_status StatusExited (unixEpoch + Second) afterStop,
     [(StatusActive, StatusExited)]).
Proof. repeat split. Qed.

(** C4 fails as stated: 100ms after the change to NeedsInput,
    [SetExited] is discarded. *)
Lemma SetExited_discarded_within_debounce :
  currentStatus atPrompt = StatusNeedsInput /\
  currentStatus
    (fst (SetExited (unixEpoch + Second + 100 * Millisecond) atPrompt))
  <> StatusExited.
Proof. split; [reflexivity|vm_compute; discriminate]. Qed.

Lemma SetExited_commits_after_debounce_witness :
  currentStatus atPrompt <> StatusExited /\
  currentStatus (fst (SetExited (unixEpoch + 2 * Second) atPrompt))
  = StatusExited.
Proof.
  assert (H : currentStatus atPrompt <> StatusExited)
    by (vm_compute; discriminate).
  split; [exact H|].
  destruct (SetExited_commits_after_debounce atPrompt
              (unixEpoch + 2 * Second) H) as [Hc _].
  apply Hc. vm_compute; discriminate.
Defined.


End DetectorFacts.

Module GoBytesFacts.
Import GoBytes.

Lemma eqb_eq a b : Byte.eqb a b = true <-> a = b.
Proof. split; [apply byte_dec_bl|apply byte_dec_lb]. Qed.

Lemma eqb_neq a b : Byte.eqb a b = false <-> a <> b.
Proof.
  split.
  - apply eqb_false.
  - intros H. destruct (Byte.eqb a b) eqn:E; [|reflexivity].
    apply eqb_eq in E. contradiction.
Qed.

Lemma eqb_refl a : Byte.eqb a a = true.
Proof. now apply eqb_eq. Qed.


Lemma bytes_eqb_eq s t : bytes_eqb s t = true <-> s = t.
Proof.
  unfold bytes_eqb.
  destruct (list_eq_dec byte_eq_dec s t); split; congruence.
Qed.

Lemma hasPrefix_app p s : hasPrefix p (p ++ s) = true.
Proof. induction p; simpl; [reflexivity|]. now rewrite eqb_refl. Qed.

Lemma hasPrefix_true p s :
  hasPrefix p s = true <-> exists t, s = p ++ t.
Proof.
  split.
  - revert s. induction p as [|a p IH]; intros s H.
    + now exists s.
    + destruct s as [|c s]; [discriminate|]. simpl in H.
      apply andb_prop in H as [H1 H2]. apply eqb_eq in H1. subst c.
      destruct (IH s H2) as [t ->]. now exists t.
  - intros [t ->]. apply hasPrefix_app.
Qed.

Lemma existsAt_true f s :
  existsAt f s = true <-> exists pre t, s = pre ++ t /\ f t = true.
Proof.
  split.
  - induction s as [|c s IH]; simpl; intros H.
    + rewrite orb_false_r in H. now exists [], [].
    + apply orb_prop in H as [H|H].
      * now exists [], (c :: s).
      * destruct (IH H) as (pre & t & -> & Ht). now exists (c :: pre), t.
  - intros (pre & t & -> & Ht). induction pre as [|c pre IH]; simpl.
    + destruct t; simpl; now rewrite Ht.
    + rewrite IH. apply orb_true_r.
Qed.

(** [strings.Contains]: the pattern occurs somewhere in the text. *)
Lemma contains_true p s :
  contains p s = true <-> exists pre post, s = pre ++ p ++ post.
Proof.
  unfold contains. rewrite existsAt_true. split.
  - intros (pre & t & -> & H). apply hasPrefix_true in H as [post ->].
    now exists pre, post.
  - intros (pre & post & ->). exists pre, (p ++ post).
    split; [reflexivity|apply hasPrefix_app].
Qed.


(** *** Carriage returns *)


Lemma removeCR_keeps s c : c <> CR -> In c s -> In c (removeCR s).
Proof.
  intros Hc H. apply filter_In. split; [exact H|].
  apply eqb_neq in Hc. now rewrite Hc.
Qed.



(** *** Blank lines *)

(** Following the spec's words, "collapse runs of 3+ consecutive
    newlines down to 2": a line feed is dropped exactly when two more
    follow it. *)
Fixpoint squeezeBlankLines (s : bytes) : bytes :=
  match s with
  | [] => []
  | a :: s1 =>
      if (Byte.eqb a LF && hasPrefix [LF; LF] s1)%bool
      then squeezeBlankLines s1
      else a :: squeezeBlankLines s1
  end.

Lemma squeeze_cons a s1 :
  squeezeBlankLines (a :: s1) =
    if (Byte.eqb a LF && hasPrefix [LF; LF] s1)%bool
    then squeezeBlankLines s1
    else a :: squeezeBlankLines s1.
Proof. reflexivity. Qed.

Lemma replaceTripleLF_unfold a s1 :
  replaceTripleLF (a :: s1) =
    if hasPrefix [LF; LF; LF] (a :: s1)
    then LF :: LF :: replaceTripleLF (skipn 2 s1)
    else a :: replaceTripleLF s1.
Proof.
  destruct s1 as [|b [|c s3]]; simpl.
  - now rewrite andb_false_r.
  - now rewrite !andb_false_r.
  - destruct (Byte.eqb LF a) eqn:Ea.
    + apply eqb_eq in Ea. subst a. rewrite eqb_refl. simpl.
      destruct (Byte.eqb LF b) eqn:Eb.
      * apply eqb_eq in Eb. subst b. rewrite eqb_refl. simpl.
        destruct (Byte.eqb LF c) eqn:Ec.
        -- apply eqb_eq in Ec. subst c. now rewrite eqb_refl.
        -- apply eqb_neq in Ec.
           assert (Byte.eqb c LF = false) as -> by (apply eqb_neq; congruence).
           reflexivity.
      * apply eqb_neq in Eb.
        assert (Byte.eqb b LF = false) as -> by (apply eqb_neq; congruence).
        reflexivity.
    + apply eqb_neq in Ea.
      assert (Byte.eqb a LF = false) as -> by (apply eqb_neq; congruence).
      reflexivity.
Qed.

Lemma hasTripleLF_cons a s :
  hasTripleLF (a :: s) = (hasPrefix [LF; LF; LF] (a :: s) || hasTripleLF s)%bool.
Proof. reflexivity. Qed.

(** A round of the loop never lengthens the text, and shortens it when
    there is a triple line feed. *)
Lemma replaceTripleLF_length n : forall s,
  (length s <= n)%nat ->
  (length (replaceTripleLF s) <= length s)%nat /\
  (hasTripleLF s = true -> (length (replaceTripleLF s) < length s)%nat).
Proof.
  induction n as [|n IH]; intros s Hn.
  - destruct s; [|simpl in Hn; lia]. split; [simpl; lia|discriminate].
  - destruct s as [|a s1]; [split; [simpl; lia|discriminate]|].
    rewrite replaceTripleLF_unfold, hasTripleLF_cons.
    destruct (hasPrefix [LF; LF; LF] (a :: s1)) eqn:HP.
    + apply hasPrefix_true in HP as [t Ht].
      injection Ht as -> ->. simpl skipn.
      destruct (IH t) as [H1 _]; [simpl in Hn; lia|].
      simpl in *. split; [lia|intros _; lia].
    + destruct (IH s1) as [H1 H2]; [simpl in Hn; lia|].
      simpl orb. simpl length. split; [lia|].
      intros H. specialize (H2 H). lia.
Qed.

Lemma hasPrefix1_squeeze s :
  hasPrefix [LF] (squeezeBlankLines s) = hasPrefix [LF] s.
Proof.
  induction s as [|a s IH]; [reflexivity|]. rewrite squeeze_cons.
  destruct (Byte.eqb a LF) eqn:Ea.
  - apply eqb_eq in Ea. subst a. cbn [andb].
    destruct (hasPrefix [LF; LF] s) eqn:H2.
    + rewrite IH. apply hasPrefix_true in H2 as [t ->]. reflexivity.
    + reflexivity.
  - cbn [andb]. simpl. destruct (Byte.eqb LF a) eqn:E; [|reflexivity].
    apply eqb_eq in E. subst a. now rewrite eqb_refl in Ea.
Qed.

Lemma hasPrefix2_squeeze s :
  hasPrefix [LF; LF] (squeezeBlankLines s) = hasPrefix [LF; LF] s.
Proof.
  induction s as [|a s IH]; [reflexivity|]. rewrite squeeze_cons.
  destruct (Byte.eqb a LF) eqn:Ea.
  - apply eqb_eq in Ea. subst a. cbn [andb].
    destruct (hasPrefix [LF; LF] s) eqn:H2.
    + rewrite IH, ?H2. apply hasPrefix_true in H2 as [t ->]. reflexivity.
    + pose proof (hasPrefix1_squeeze s) as H1.
      change (hasPrefix [LF; LF] (LF :: squeezeBlankLines s))
        with (Byte.eqb LF LF && hasPrefix [LF] (squeezeBlankLines s))%bool.
      change (hasPrefix [LF; LF] (LF :: s))
        with (Byte.eqb LF LF && hasPrefix [LF] s)%bool.
      now rewrite H1.
  - cbn [andb]. simpl. destruct (Byte.eqb LF a) eqn:E; [|reflexivity].
    apply eqb_eq in E. subst a. now rewrite eqb_refl in Ea.
Qed.

(** One more line feed in front of a squeezed text. *)
Definition consLF (s : bytes) : bytes :=
  if hasPrefix [LF; LF] s then s else LF :: s.

Lemma consLF_twice s : hasPrefix [LF; LF] (consLF (consLF s)) = true.
Proof.
  unfold consLF. destruct (hasPrefix [LF; LF] s) eqn:E1.
  - now rewrite E1.
  - destruct (hasPrefix [LF; LF] (LF :: s)) eqn:E2; [exact E2|].
    apply (hasPrefix_app [LF; LF] s).
Qed.

Lemma squeeze_LF s :
  squeezeBlankLines (LF :: s) = consLF (squeezeBlankLines s).
Proof.
  unfold consLF. rewrite hasPrefix2_squeeze, squeeze_cons, eqb_refl.
  cbn [andb]. now destruct (hasPrefix [LF; LF] s).
Qed.

Lemma squeeze_other a s :
  a <> LF -> squeezeBlankLines (a :: s) = a :: squeezeBlankLines s.
Proof.
  intros H. rewrite squeeze_cons. apply eqb_neq in H. now rewrite H.
Qed.

Lemma squeeze_replaceTripleLF n : forall s,
  (length s <= n)%nat ->
  squeezeBlankLines (replaceTripleLF s) = squeezeBlankLines s.
Proof.
  induction n as [|n IH]; intros s Hn.
  - destruct s; [reflexivity|simpl in Hn; lia].
  - destruct s as [|a s1]; [reflexivity|].
    rewrite replaceTripleLF_unfold.
    destruct (hasPrefix [LF; LF; LF] (a :: s1)) eqn:HP.
    + apply hasPrefix_true in HP as [t Ht].
      injection Ht as -> ->. simpl skipn.
      rewrite !squeeze_LF.
      rewrite IH; [|simpl in Hn; lia].
      set (q := squeezeBlankLines t).
      unfold consLF at 3.
      pose proof (consLF_twice q) as E.
      now rewrite E.
    + destruct (Byte.eqb a LF) eqn:Ea.
      * apply eqb_eq in Ea. subst a. rewrite !squeeze_LF.
        rewrite IH; [reflexivity|simpl in Hn; lia].
      * apply eqb_neq in Ea. rewrite !squeeze_other by exact Ea.
        rewrite IH; [reflexivity|simpl in Hn; lia].
Qed.

Lemma squeeze_id s : hasTripleLF s = false -> squeezeBlankLines s = s.
Proof.
  induction s as [|a s IH]; [reflexivity|].
  rewrite hasTripleLF_cons. intros H.
  apply orb_false_elim in H as [H1 H2]. rewrite squeeze_cons.
  destruct (Byte.eqb a LF && hasPrefix [LF; LF] s)%bool eqn:E.
  - apply andb_prop in E as [Ea E2]. apply eqb_eq in Ea. subst a.
    simpl in H1. simpl in E2. congruence.
  - now rewrite IH.
Qed.

(** *** Trimming *)

Lemma trimFront_suffix width : forall s skip,
  exists pre, s = pre ++ trimFront width skip s.
Proof.
  induction s as [|c s IH]; intros skip; [now exists []|].
  simpl. destruct skip as [|k].
  - destruct (width (c :: s)) as [|k].
    + now exists [].
    + destruct (IH k) as [pre E]. exists (c :: pre). simpl. now f_equal.
  - destruct (IH k) as [pre E]. exists (c :: pre). simpl. now f_equal.
Qed.

Lemma trimFront_done width :
  width [] = 0%nat ->
  forall s skip, width (trimFront width skip s) = 0%nat.
Proof.
  intros H0. induction s as [|c s IH]; intros skip; [exact H0|].
  simpl. destruct skip as [|k]; [|apply IH].
  destruct (width (c :: s)) as [|k] eqn:E; [exact E|apply IH].
Qed.

Lemma trimFront_id width s :
  width s = 0%nat -> trimFront width 0 s = s.
Proof. intros H. destruct s; [reflexivity|]. simpl. now rewrite H. Qed.

Lemma spaceWidth_prefix p q :
  spaceWidth (p ++ q) = 0%nat -> spaceWidth p = 0%nat.
Proof.
  destruct p as [|a [|b [|c p]]]; simpl; trivial;
    destruct (isAsciiSpace a); trivial; try discriminate;
    destruct (isSpace2 a b); trivial; discriminate.
Qed.

Lemma TrimLeftSpace_suffix s : exists pre, s = pre ++ TrimLeftSpace s.
Proof. apply trimFront_suffix. Qed.

Lemma TrimRightSpace_prefix s : exists post, s = TrimRightSpace s ++ post.
Proof.
  unfold TrimRightSpace.
  destruct (trimFront_suffix spaceWidthRev (rev s) 0) as [pre E].
  exists (rev pre). rewrite <- rev_app_distr, <- E. now rewrite rev_involutive.
Qed.

(** The trimmed text is a piece of the text. *)
Lemma TrimSpace_infix s : exists pre post, s = pre ++ TrimSpace s ++ post.
Proof.
  unfold TrimSpace.
  destruct (TrimLeftSpace_suffix s) as [pre E1].
  destruct (TrimRightSpace_prefix (TrimLeftSpace s)) as [post E2].
  exists pre, post. now rewrite <- E2.
Qed.

(** It neither starts nor ends with white space. *)
Lemma TrimSpace_front s : spaceWidth (TrimSpace s) = 0%nat.
Proof.
  unfold TrimSpace.
  destruct (TrimRightSpace_prefix (TrimLeftSpace s)) as [post E].
  apply (spaceWidth_prefix _ post). rewrite <- E.
  now apply trimFront_done.
Qed.

Lemma TrimSpace_back s : spaceWidthRev (rev (TrimSpace s)) = 0%nat.
Proof.
  unfold TrimSpace, TrimRightSpace. rewrite rev_involutive.
  now apply trimFront_done.
Qed.

Lemma TrimSpace_id s :
  spaceWidth s = 0%nat -> spaceWidthRev (rev s) = 0%nat -> TrimSpace s = s.
Proof.
  intros H1 H2. unfold TrimSpace, TrimLeftSpace, TrimRightSpace.
  rewrite (trimFront_id _ s H1), (trimFront_id _ (rev s) H2).
  apply rev_involutive.
Qed.

Lemma TrimSpace_idempotent s : TrimSpace (TrimSpace s) = TrimSpace s.
Proof. apply TrimSpace_id; [apply TrimSpace_front|apply TrimSpace_back]. Qed.



End GoBytesFacts.

Module RecorderFacts.
Import GoTime GoBytes Recorder GoBytesFacts.

(** *** Cleaning *)

(** The loop of [cleanForTranscript] ends within its fuel, and computes
    what the spec describes. *)
Lemma collapseLoop_spec fuel : forall s,
  (length s <= fuel)%nat ->
  collapseLoop fuel s = squeezeBlankLines s /\
  hasTripleLF (collapseLoop fuel s) = false.
Proof.
  induction fuel as [|fuel IH]; intros s Hn.
  - destruct s; [now split|simpl in Hn; lia].
  - simpl. destruct (hasTripleLF s) eqn:E.
    + destruct (replaceTripleLF_length (length s) s (le_n _)) as [_ Hlt].
      specialize (Hlt E).
      destruct (IH (replaceTripleLF s)) as [H1 H2]; [lia|].
      split; [|exact H2].
      rewrite H1. apply (squeeze_replaceTripleLF (length s)). lia.
    + split; [|exact E]. symmetry. now apply squeeze_id.
Qed.


Lemma collapseBlankLines_squeeze s :
  collapseBlankLines s = squeezeBlankLines s.
Proof. apply collapseLoop_spec, le_n. Qed.

(** More fuel changes nothing. *)
Lemma collapseLoop_fuel fuel s :
  (length s <= fuel)%nat -> collapseLoop fuel s = collapseBlankLines s.
Proof.
  intros H. rewrite collapseBlankLines_squeeze.
  now apply collapseLoop_spec.
Qed.




Section Facts.
Context {A : Type}.
Variable m : TranscriptEntry -> option bytes.
Implicit Types (tr : TranscriptRecorder A) (now : Time).



(** *** Flushing *)

Lemma flush_empty tr : buffer tr = [] -> flush m tr = (tr, []).
Proof. intros H. unfold flush. now rewrite H. Qed.

Lemma flush_nonempty tr :
  buffer tr <> [] ->
  flush m tr =
    (with_buffer [] 0 tr,
     match serialize m (buffer tr), flushFn tr with
     | _ :: _, Some f => [f (serialize m (buffer tr))]
     | _, _ => []
     end).
Proof.
  intros H. unfold flush. destruct (buffer tr) as [|e es]; [contradiction|].
  destruct (serialize m (e :: es)); [reflexivity|].
  now destruct (flushFn tr).
Qed.

Lemma serialize_app es1 es2 :
  serialize m (es1 ++ es2) = serialize m es1 ++ serialize m es2.
Proof.
  induction es1 as [|e es1 IH]; [reflexivity|]. simpl.
  destruct (m e); [|exact IH]. rewrite IH.
  now rewrite <- app_assoc.
Qed.

Lemma serialize_nonempty es :
  (forall e, m e <> None) -> es <> [] -> serialize m es <> [].
Proof.
  intros Hm H. destruct es as [|e es]; [contradiction|]. simpl.
  destruct (m e) as [j|] eqn:E; [|now elim (Hm e)].
  destruct j; discriminate.
Qed.

Lemma flush_buffer tr : buffer (fst (flush m tr)) = [].
Proof.
  destruct (buffer tr) eqn:E.
  - now rewrite flush_empty.
  - rewrite flush_nonempty; [reflexivity|congruence].
Qed.

Lemma flush_keeps tr :
  stopped (fst (flush m tr)) = stopped tr /\
  lastOutput (fst (flush m tr)) = lastOutput tr /\
  dupCount (fst (flush m tr)) = dupCount tr /\
  flushFn (fst (flush m tr)) = flushFn tr /\
  flushTimer (fst (flush m tr)) = flushTimer tr.
Proof.
  destruct (buffer tr) eqn:E.
  - rewrite flush_empty; [now repeat split|exact E].
  - rewrite flush_nonempty; [now repeat split|congruence].
Qed.

(** The batch is made from the buffer alone. *)
Lemma flush_out_dupCount tr k :
  snd (flush m (with_dupCount k tr)) = snd (flush m tr).
Proof.
  unfold flush. simpl. destruct (buffer tr); [reflexivity|].
  destruct (serialize m (t :: l)); [reflexivity|].
  now destruct (flushFn tr).
Qed.

Lemma Stop_out_dupCount tr k :
  snd (Stop m (with_dupCount k tr)) = snd (Stop m tr).
Proof.
  unfold Stop, flush. simpl. destruct (buffer tr); [reflexivity|].
  destruct (serialize m (t :: l)); [reflexivity|].
  now destruct (flushFn tr).
Qed.

Lemma Stop_unfold tr :
  Stop m tr =
    flush m (with_flushTimer (option_map StopTimer (flushTimer tr))
               (with_stopped true tr)).
Proof. reflexivity. Qed.

Lemma Stop_state tr :
  stopped (fst (Stop m tr)) = true /\
  buffer (fst (Stop m tr)) = [] /\
  dupCount (fst (Stop m tr)) = dupCount tr /\
  lastOutput (fst (Stop m tr)) = lastOutput tr.
Proof.
  rewrite Stop_unfold.
  match goal with |- context [flush m ?x] =>
    destruct (flush_keeps x) as (H1 & H2 & H3 & _);
    pose proof (flush_buffer x) as H4
  end.
  rewrite H1, H2, H3, H4. now repeat split.
Qed.

Lemma StopTimer_twice (t : option Timer) :
  option_map StopTimer (option_map StopTimer t) = option_map StopTimer t.
Proof. now destruct t. Qed.

Lemma Stop_twice tr : Stop m (fst (Stop m tr)) = (fst (Stop m tr), []).
Proof.
  rewrite (Stop_unfold (fst (Stop m tr))).
  rewrite flush_empty by apply flush_buffer.
  f_equal. rewrite Stop_unfold.
  destruct (buffer tr) eqn:E.
  - rewrite flush_empty by exact E. simpl.
    unfold with_flushTimer, with_stopped. simpl.
    now rewrite StopTimer_twice.
  - rewrite flush_nonempty by (simpl; congruence). simpl.
    unfold with_flushTimer, with_stopped, with_buffer. simpl.
    now rewrite StopTimer_twice.
Qed.

(** C6. With a flush function registered and [json.Marshal] not
    failing, [Stop] hands off exactly one batch, the serialization of
    all buffered entries, when the buffer is not empty, and none when
    it is; the recorder it leaves has an empty buffer (and a byte
    counter at zero if anything was flushed), so a second [Stop]
    changes nothing and hands off nothing. A flush on an empty buffer
    calls nothing. *)
Theorem Stop_flushes_once tr (f : bytes -> A) :
  flushFn tr = Some f ->
  (forall e, m e <> None) ->
  snd (Stop m tr)
    = match buffer tr with
      | [] => []
      | _ :: _ => [f (serialize m (buffer tr))]
      end
  /\ buffer (fst (Stop m tr)) = []
  /\ (buffer tr <> [] -> bufferBytes (fst (Stop m tr)) = 0)
  /\ Stop m (fst (Stop m tr)) = (fst (Stop m tr), [])
  /\ (forall tr', buffer tr' = [] -> flush m tr' = (tr', [])).
Proof.
  intros Hf Hm. repeat split.
  - rewrite Stop_unfold. destruct (buffer tr) as [|e es] eqn:E.
    + now rewrite flush_empty.
    + rewrite flush_nonempty by (simpl; congruence).
      unfold with_flushTimer, with_stopped. cbn [snd buffer flushFn].
      rewrite Hf, E.
      pose proof (serialize_nonempty (e :: es) Hm) as Hne.
      destruct (serialize m (e :: es)); [|reflexivity].
      elim Hne; [discriminate|reflexivity].
  - apply Stop_state.
  - intros Hb. rewrite Stop_unfold.
    now rewrite flush_nonempty by (simpl; congruence).
  - apply Stop_twice.
  - intros tr'. apply flush_empty.
Qed.

(** *** After [Stop] *)

Lemma step_stopped tr now e :
  stopped tr = true -> buffer tr = [] ->
  flushTimer tr = option_map StopTimer (flushTimer tr) ->
  step m now e tr = (tr, []).
Proof.
  intros Hs Hb Ht. destruct e; simpl.
  - unfold RecordOutput. now rewrite Hs.
  - unfold RecordInput. now rewrite Hs.
  - unfold flushTimerFunc. now rewrite Hs.
  - rewrite Stop_unfold. rewrite flush_empty by exact Hb.
    f_equal. destruct tr; simpl in *. subst. now rewrite <- Ht.
Qed.

Lemma run_stopped tr evs :
  stopped tr = true -> buffer tr = [] ->
  flushTimer tr = option_map StopTimer (flushTimer tr) ->
  run m evs tr = (tr, []).
Proof.
  intros Hs Hb Ht. induction evs as [|[now e] evs IH]; [reflexivity|].
  simpl. rewrite (step_stopped tr now e Hs Hb Ht). now rewrite IH.
Qed.

Lemma run_after_Stop tr evs :
  run m evs (fst (Stop m tr)) = (fst (Stop m tr), []).
Proof.
  apply run_stopped; try apply Stop_state.
  rewrite Stop_unfold.
  match goal with |- context [flush m ?x] =>
    destruct (flush_keeps x) as (_ & _ & _ & _ & H)
  end.
  rewrite H. simpl. now rewrite StopTimer_twice.
Qed.

(** C10. The batch that [flush] hands off, also from [Stop], is made
    from the buffered entries alone: it is the same whatever the
    pending repeat counter, which [flush] and [Stop] leave as it is;
    and after [Stop] no event changes the recorder or hands off
    anything. So a count of repeats still pending at [Stop] reaches no
    batch. *)
Theorem pending_repeats_never_flushed tr k evs :
  snd (flush m (with_dupCount k tr)) = snd (flush m tr)
  /\ snd (Stop m (with_dupCount k tr)) = snd (Stop m tr)
  /\ dupCount (fst (flush m tr)) = dupCount tr
  /\ dupCount (fst (Stop m tr)) = dupCount tr
  /\ buffer (fst (Stop m tr)) = []
  /\ run m evs (fst (Stop m tr)) = (fst (Stop m tr), []).
Proof.
  repeat split.
  - apply flush_out_dupCount.
  - apply Stop_out_dupCount.
  - apply flush_keeps.
  - apply Stop_state.
  - apply Stop_state.
  - apply run_after_Stop.
Qed.

(** *** Input *)

Lemma isControlKey_spec text :
  isControlKey text = true <->
  exists c, text = [c] /\ (code c < 32)%N /\ c <> LF /\ c <> CR.
Proof.
  split.
  - destruct text as [|c [|c' text]]; try discriminate. simpl.
    intros H. apply andb_prop in H as [H H3]. apply andb_prop in H as [H1 H2].
    exists c. repeat split.
    + now apply N.ltb_lt.
    + apply eqb_neq. now destruct (Byte.eqb c LF).
    + apply eqb_neq. now destruct (Byte.eqb c CR).
  - intros (c & -> & H1 & H2 & H3). simpl.
    apply N.ltb_lt in H1. apply eqb_neq in H2, H3.
    now rewrite H1, H2, H3.
Qed.

Lemma wrapInt_small z : - 2 ^ 63 <= z <= maxInt -> wrapInt z = z.
Proof.
  unfold wrapInt, maxInt. intros H.
  rewrite Z.mod_small by lia. lia.
Qed.

(** C8. On a recorder that has not been stopped, [RecordInput] drops
    the payload (leaves the recorder as it was) exactly when it is one
    byte below 32 other than line feed and carriage return, as the
    lone escape byte 27; any other payload is appended unchanged as
    an entry of kind "input" and its length is added to the byte
    counter, after which the threshold check may flush. So "ls -la\n"
    becomes one input entry and adds 7 to the counter. *)
Theorem RecordInput_drops_control_keys tr now data :
  stopped tr = false ->
  (isControlKey data = true <->
   exists c, data = [c] /\ (code c < 32)%N /\ c <> LF /\ c <> CR)
  /\ (isControlKey data = true -> RecordInput m now data tr = (tr, []))
  /\ (isControlKey data = false ->
      RecordInput m now data tr
      = if TranscriptFlushThreshold <=?
             wrapInt (bufferBytes tr + len data)
        then flush m
               (with_buffer
                  (buffer tr ++ [mkEntry (UnixMilli now) (lit "input") data])
                  (wrapInt (bufferBytes tr + len data)) tr)
        else (with_buffer
                (buffer tr ++ [mkEntry (UnixMilli now) (lit "input") data])
                (wrapInt (bufferBytes tr + len data)) tr, []))
  /\ RecordInput m now [x1b] tr = (tr, [])
  /\ (0 <= bufferBytes tr < TranscriptFlushThreshold - 7 ->
      RecordInput m now (lit "ls -la" ++ [LF]) tr
      = (with_buffer
           (buffer tr ++
            [mkEntry (UnixMilli now) (lit "input") (lit "ls -la" ++ [LF])])
           (bufferBytes tr + 7) tr, [])).
Proof.
  intros Hs. split; [apply isControlKey_spec|]. repeat split.
  - intros H. unfold RecordInput. now rewrite Hs, H.
  - intros H. unfold RecordInput. now rewrite Hs, H.
  - unfold RecordInput. now rewrite Hs.
  - intros Hb. unfold RecordInput. rewrite Hs.
    change (isControlKey (lit "ls -la" ++ [LF])) with false.
    unfold appendEntry. cbn [Text bufferBytes with_buffer].
    change (len (lit "ls -la" ++ [LF])) with 7.
    unfold TranscriptFlushThreshold in *.
    rewrite wrapInt_small by (unfold maxInt; lia).
    destruct (1024 <=? bufferBytes tr + 7) eqn:E; [|reflexivity].
    apply Z.leb_le in E. lia.
Qed.

(** *** Repeated frames *)

Lemma isAnimationFrame_nonempty s : isAnimationFrame s = true -> s <> [].
Proof. destruct s; [discriminate|discriminate]. Qed.

Lemma RecordOutput_repeat tr now data :
  stopped tr = false ->
  isAnimationFrame (cleanForTranscript data) = true ->
  cleanForTranscript data = lastOutput tr ->
  RecordOutput m now data tr
  = (with_dupCount (wrapInt (dupCount tr + 1)) tr, []).
Proof.
  intros Hs Ha He. unfold RecordOutput. rewrite Hs.
  pose proof (isAnimationFrame_nonempty _ Ha) as Hne.
  destruct (cleanForTranscript data) as [|c s] eqn:Ec; [now elim Hne|].
  rewrite Ha. rewrite <- He.
  assert (bytes_eqb (c :: s) (c :: s) = true) as -> by now apply bytes_eqb_eq.
  reflexivity.
Qed.

(** What [RecordOutput] does with a pending repeat count before it
    stores a new output. *)
Definition summarisePending now tr : TranscriptRecorder A :=
  if 0 <? dupCount tr then
    with_dupCount 0
      (with_buffer
         (buffer tr ++
          [mkEntry (UnixMilli now) (lit "output")
                   (repeatedText (dupCount tr))])
         (bufferBytes tr) tr)
  else tr.

Lemma RecordOutput_new tr now data :
  stopped tr = false ->
  cleanForTranscript data <> [] ->
  cleanForTranscript data <> lastOutput tr ->
  RecordOutput m now data tr
  = appendEntry m
      (mkEntry (UnixMilli now) (lit "output") (cleanForTranscript data))
      (with_lastOutput (cleanForTranscript data) (summarisePending now tr)).
Proof.
  intros Hs Hne Hd. unfold RecordOutput. rewrite Hs.
  destruct (cleanForTranscript data) as [|c s] eqn:Ec; [now elim Hne|].
  assert (bytes_eqb (c :: s) (lastOutput tr) = false) as ->.
  { destruct (bytes_eqb (c :: s) (lastOutput tr)) eqn:E; [|reflexivity].
    apply bytes_eqb_eq in E. contradiction. }
  rewrite andb_false_r. reflexivity.
Qed.

Lemma appendEntry_keeps entry tr :
  stopped (fst (appendEntry m entry tr)) = stopped tr /\
  lastOutput (fst (appendEntry m entry tr)) = lastOutput tr /\
  dupCount (fst (appendEntry m entry tr)) = dupCount tr.
Proof.
  unfold appendEntry.
  match goal with |- context [if ?c then _ else _] => destruct c end.
  - match goal with |- context [flush m ?x] =>
      destruct (flush_keeps x) as (H1 & H2 & H3 & _)
    end.
    rewrite H1, H2, H3. now repeat split.
  - now repeat split.
Qed.

Definition outputEvents (ds : list (Time * bytes)) : list (Time * Event) :=
  map (fun d => (fst d, EvRecordOutput (snd d))) ds.

Lemma run_app evs1 evs2 tr :
  run m (evs1 ++ evs2) tr =
    let (tr1, out1) := run m evs1 tr in
    let (tr2, out2) := run m evs2 tr1 in
    (tr2, out1 ++ out2).
Proof.
  revert tr. induction evs1 as [|[now e] evs1 IH]; intros tr; simpl.
  - now destruct (run m evs2 tr).
  - destruct (step m now e tr) as [tr1 out1]. rewrite IH.
    destruct (run m evs1 tr1) as [tr2 out2].
    destruct (run m evs2 tr2) as [tr3 out3].
    now rewrite app_assoc.
Qed.

Lemma run_repeats frame : forall ds tr,
  stopped tr = false ->
  isAnimationFrame frame = true ->
  lastOutput tr = frame ->
  Forall (fun x => cleanForTranscript (snd x) = frame) ds ->
  0 <= dupCount tr ->
  dupCount tr + Z.of_nat (length ds) <= maxInt ->
  run m (outputEvents ds) tr
  = (with_dupCount (dupCount tr + Z.of_nat (length ds)) tr, []).
Proof.
  induction ds as [|d ds IH]; intros tr Hs Ha Hl Hf H0 Hmax.
  - simpl. rewrite Z.add_0_r. now destruct tr.
  - inversion Hf as [|? ? Hd Hf']; subst. simpl.
    rewrite RecordOutput_repeat; [|exact Hs|now rewrite Hd|congruence].
    rewrite wrapInt_small
      by (unfold maxInt in *; simpl length in Hmax; lia).
    fold (outputEvents ds).
    rewrite IH; trivial.
    + simpl. f_equal. unfold with_dupCount. simpl. f_equal.
      simpl length in Hmax. lia.
    + simpl. lia.
    + simpl. simpl length in Hmax. lia.
Qed.

(** C5. On a live recorder whose last output is another text, feed
    [N >= 2] outputs that all clean to the same animation frame, then
    an output that cleans to a different, non-empty text [c]. The
    first frame is stored by its own call, leaving the recorder [r1];
    the other [N - 1] store nothing; the last call appends to the
    buffer of [r1] exactly the summary entry, whose text is
    "[repeated " followed by [N - 1] dots and "]", and right after it
    the entry for [c], and then makes its threshold check. *)
Theorem repeated_frames_summarised
    tr frame (N : nat) first rest now d c :
  stopped tr = false ->
  0 <= dupCount tr ->
  isAnimationFrame frame = true ->
  lastOutput tr <> frame ->
  Forall (fun x => cleanForTranscript (snd x) = frame) (first :: rest) ->
  length (first :: rest) = N ->
  (2 <= N)%nat ->
  Z.of_nat N <= maxInt ->
  cleanForTranscript d = c ->
  c <> [] ->
  c <> frame ->
  exists r1 out1 r2,
    RecordOutput m (fst first) (snd first) tr = (r1, out1)
    /\ buffer r2
       = buffer r1 ++
         [mkEntry (UnixMilli now) (lit "output")
            (lit "[repeated " ++ RepeatDot (N - 1) ++ lit "]");
          mkEntry (UnixMilli now) (lit "output") c]
    /\ bufferBytes r2 = wrapInt (bufferBytes r1 + len c)
    /\ lastOutput r2 = c
    /\ dupCount r2 = 0
    /\ run m (outputEvents (first :: rest) ++ [(now, EvRecordOutput d)]) tr
       = (fst (if TranscriptFlushThreshold <=? bufferBytes r2
               then flush m r2 else (r2, [])),
          out1 ++
          snd (if TranscriptFlushThreshold <=? bufferBytes r2
               then flush m r2 else (r2, []))).
Proof.
  intros Hs H0 Ha Hl Hf HN H2 Hmax Hc Hne Hcf.
  inversion Hf as [|? ? Hfirst Hrest]; subst.
  pose proof (isAnimationFrame_nonempty _ Ha) as Hfne.
  set (frame := cleanForTranscript (snd first)) in *.
  destruct (RecordOutput m (fst first) (snd first) tr) as [r1 out1] eqn:E1.
  assert (K : stopped r1 = false /\ lastOutput r1 = frame /\ dupCount r1 = 0).
  { rewrite RecordOutput_new in E1; trivial; [|fold frame; congruence].
    match type of E1 with appendEntry m ?e ?x = _ =>
      destruct (appendEntry_keeps e x) as (K1 & K2 & K3);
      rewrite E1 in K1, K2, K3
    end.
    simpl in K1, K2, K3. split; [|split].
    - rewrite K1. unfold summarisePending.
      now destruct (0 <? dupCount tr).
    - exact K2.
    - rewrite K3. unfold summarisePending.
      destruct (0 <? dupCount tr) eqn:L; [reflexivity|].
      apply Z.ltb_ge in L. lia. }
  destruct K as (Ks & Kl & Kd).
  simpl length in *.
  set (r1' := with_dupCount (Z.of_nat (length rest)) r1).
  set (tr2 := with_lastOutput (cleanForTranscript d)
                (with_dupCount 0
                   (with_buffer
                      (buffer r1 ++
                       [mkEntry (UnixMilli now) (lit "output")
                          (repeatedText (Z.of_nat (length rest)))])
                      (bufferBytes r1) r1))).
  exists r1, out1,
    (with_buffer
       (buffer tr2 ++
        [mkEntry (UnixMilli now) (lit "output") (cleanForTranscript d)])
       (wrapInt (bufferBytes tr2 + len (cleanForTranscript d))) tr2).
  split; [reflexivity|]. split.
  { replace (S (length rest) - 1)%nat with (length rest) by lia.
    unfold tr2. cbn [buffer with_buffer with_lastOutput with_dupCount].
    rewrite <- app_assoc. unfold repeatedText.
    now rewrite Nat2Z.id. }
  split; [reflexivity|]. split; [reflexivity|]. split; [reflexivity|].
  change (outputEvents (first :: rest))
    with ((fst first, EvRecordOutput (snd first)) :: outputEvents rest).
  cbn [app run step]. rewrite E1. rewrite run_app.
  rewrite (run_repeats frame rest r1 Ks Ha Kl Hrest); [|lia|lia].
  rewrite Kd, Z.add_0_l. fold r1'.
  cbn [run step].
  rewrite RecordOutput_new;
    [|exact Ks|exact Hne|simpl; rewrite Kl; exact Hcf].
  assert (Esum : summarisePending now r1'
                 = with_dupCount 0
                     (with_buffer
                        (buffer r1 ++
                         [mkEntry (UnixMilli now) (lit "output")
                            (repeatedText (Z.of_nat (length rest)))])
                        (bufferBytes r1) r1)).
  { unfold summarisePending. simpl dupCount.
    assert ((0 <? Z.of_nat (length rest)) = true) as ->
      by (apply Z.ltb_lt; lia).
    reflexivity. }
  rewrite Esum. fold tr2. unfold appendEntry. cbn [Text].
  match goal with |- context [if ?c then _ else _] => destruct c end.
  - destruct (flush m _) as [r o]. simpl. now rewrite app_nil_r.
  - simpl. reflexivity.
Qed.
End Facts.

(** *** Concrete runs *)

(** A stand-in for [json.Marshal] in the examples: kind, a colon, the
    text. It never fails. *)
Definition demoMarshal (e : TranscriptEntry) : option bytes :=
  Some (Kind e ++ lit ":" ++ Text e).

(** The flush function of the examples keeps the batch it is given. *)
Definition keep (lines : bytes) : bytes := lines.

Definition freshRec : TranscriptRecorder bytes :=
  NewTranscriptRecorder unixEpoch (Some keep).

(** A recorder holding the input "ls". *)
Definition withInput : TranscriptRecorder bytes :=
  fst (RecordInput demoMarshal unixEpoch (lit "ls") freshRec).

Lemma repeated_frames_summarised_witness :
  exists r1 out1 r2,
    RecordOutput demoMarshal unixEpoch (lit "50%") freshRec = (r1, out1)
    /\ buffer r2
       = buffer r1 ++
         [mkEntry 2 (lit "output") (lit "[repeated ..]");
          mkEntry 2 (lit "output") (lit "done")]
    /\ bufferBytes r2 = wrapInt (bufferBytes r1 + len (lit "done"))
    /\ lastOutput r2 = lit "done"
    /\ dupCount r2 = 0
    /\ run demoMarshal
         (outputEvents
            [(unixEpoch, lit "50%"); (unixEpoch + Second, CR :: lit "50%");
             (unixEpoch + Second, lit "50% ")]
          ++ [(unixEpoch + 2 * Millisecond, EvRecordOutput (lit "  done"))])
         freshRec
       = (fst (if TranscriptFlushThreshold <=? bufferBytes r2
               then flush demoMarshal r2 else (r2, [])),
          out1 ++
          snd (if TranscriptFlushThreshold <=? bufferBytes r2
               then flush demoMarshal r2 else (r2, []))).
Proof.
  apply (repeated_frames_summarised demoMarshal freshRec (lit "50%") 3
           (unixEpoch, lit "50%")
           [(unixEpoch + Second, CR :: lit "50%");
            (unixEpoch + Second, lit "50% ")]
           (unixEpoch + 2 * Millisecond) (lit "  done") (lit "done")).
  - reflexivity.
  - vm_compute; discriminate.
  - reflexivity.
  - discriminate.
  - repeat constructor.
  - reflexivity.
  - apply le_S, le_n.
  - vm_compute; discriminate.
  - reflexivity.
  - discriminate.
  - discriminate.
Defined.

Lemma Stop_flushes_once_witness :
  flushFn withInput = Some keep /\
  snd (Stop demoMarshal withInput) = [lit "input:ls" ++ [LF]] /\
  Stop demoMarshal (fst (Stop demoMarshal withInput))
  = (fst (Stop demoMarshal withInput), []).
Proof.
  split; [reflexivity|].
  destruct (Stop_flushes_once demoMarshal withInput keep eq_refl)
    as (H1 & _ & _ & H4 & _).
  - discriminate.
  - split; [exact H1|exact H4].
Defined.

Lemma RecordInput_drops_control_keys_witness :
  stopped freshRec = false /\
  RecordInput demoMarshal unixEpoch [x1b] freshRec = (freshRec, []) /\
  RecordInput demoMarshal unixEpoch (lit "ls -la" ++ [LF]) freshRec
  = (with_buffer [mkEntry 0 (lit "input") (lit "ls -la" ++ [LF])] 7 freshRec,
     []).
Proof.
  split; [reflexivity|].
  destruct (RecordInput_drops_control_keys demoMarshal freshRec unixEpoch
              [x1b] eq_refl) as (_ & _ & _ & H4 & _).
  destruct (RecordInput_drops_control_keys demoMarshal freshRec unixEpoch
              (lit "ls -la" ++ [LF]) eq_refl) as (_ & _ & _ & _ & H5).
  split; [exact H4|]. apply H5. vm_compute.
  split; [discriminate|reflexivity].
Defined.

End RecorderFacts.

(** ** The text functions of the detector *)

Module DetectorTextFacts.
Import GoBytes Detector GoBytesFacts.

(** *** Escape sequences *)

Lemma isAlpha_not_param c : isAlpha c = true -> isParam c = false.
Proof. destruct c; try reflexivity; discriminate. Qed.

Lemma sgrTail_csiTail s n : sgrTail s = Some n -> csiTail s = Some n.
Proof.
revert n. induction s as [|c s IH]; intros n; simpl; [discriminate|].
destruct (isParam c).
- destruct (sgrTail s) as [k|]; [|discriminate].
  intros H. now rewrite (IH k eq_refl).
- destruct (Byte.eqb c x6d) eqn:E; [|discriminate].
  apply eqb_eq in E. now subst c.
Qed.

Lemma reSGR_reCSI s : reCSI s = None -> reSGR s = None.
Proof.
unfold reCSI, reSGR.
destruct s as [|a [|b s]]; trivial.
destruct (sgrTail s) as [n|] eqn:E.
- rewrite (sgrTail_csiTail s n E). destruct a, b; simpl; congruence.
- destruct a, b; reflexivity.
Qed.

(** X1. The third alternative of [ansiRegex], [\x1b\[[0-9;]*m], never
    decides a match: whatever it matches, the first alternative matches
    first, with the same length. The pattern finds the same matches
    without it, and so does [transcriptAnsiRegex]. *)
Theorem ansiRegex_third_alternative_unused s :
  ansiRegex s = orElse reCSI reOSC s /\
  Recorder.transcriptAnsiRegex s = orElse reCSI (orElse reOSC reCSIPrivate) s.
Proof.
unfold ansiRegex, Recorder.transcriptAnsiRegex, orElse.
destruct (reCSI s) eqn:E1; [now split|].
rewrite (reSGR_reCSI s E1). now destruct (reOSC s).
Qed.

(** A pattern all of whose matches start with ESC. *)
Definition startsWithESC (re : Matcher) : Prop :=
  forall c s, c <> ESC -> re (c :: s) = None.

Lemma reCSI_ESC : startsWithESC reCSI.
Proof. intros c s H. destruct c; try reflexivity. now elim H. Qed.

Lemma reOSC_ESC : startsWithESC reOSC.
Proof. intros c s H. destruct c; try reflexivity. now elim H. Qed.

Lemma reSGR_ESC : startsWithESC reSGR.
Proof. intros c s H. destruct c; try reflexivity. now elim H. Qed.

Lemma reCSIPrivate_ESC : startsWithESC reCSIPrivate.
Proof. intros c s H. destruct c; try reflexivity. now elim H. Qed.

Lemma orElse_ESC re1 re2 :
  startsWithESC re1 -> startsWithESC re2 -> startsWithESC (orElse re1 re2).
Proof.
intros H1 H2 c s H. unfold orElse. now rewrite (H1 c s H), (H2 c s H).
Qed.

Lemma ansiRegex_ESC : startsWithESC ansiRegex.
Proof. repeat apply orElse_ESC; auto using reCSI_ESC, reOSC_ESC, reSGR_ESC. Qed.

Lemma transcriptAnsiRegex_ESC : startsWithESC Recorder.transcriptAnsiRegex.
Proof.
repeat apply orElse_ESC;
  auto using reCSI_ESC, reOSC_ESC, reSGR_ESC, reCSIPrivate_ESC.
Qed.

Lemma deleteMatches_plain re pre s :
  startsWithESC re -> ~ In ESC pre ->
  deleteMatches re 0 (pre ++ s) = pre ++ deleteMatches re 0 s.
Proof.
intros Hre. induction pre as [|c pre IH]; intros H; [reflexivity|].
simpl. rewrite (Hre c (pre ++ s)).
- rewrite IH; [reflexivity|]. intros H'. apply H. now right.
- intros E. apply H. now left.
Qed.

Lemma deleteMatches_skip re rest : forall a,
  deleteMatches re (length a) (a ++ rest) = deleteMatches re 0 rest.
Proof. induction a as [|c a IH]; [reflexivity|exact IH]. Qed.

Lemma deleteMatches_match re a rest :
  re (a ++ rest) = Some (length a) -> a <> [] ->
  deleteMatches re 0 (a ++ rest) = deleteMatches re 0 rest.
Proof.
intros H Ha. destruct a as [|c a]; [contradiction|].
simpl in *. rewrite H. apply deleteMatches_skip.
Qed.

Lemma csiTail_match params c rest :
  Forall (fun p => isParam p = true) params -> isAlpha c = true ->
  csiTail (params ++ c :: rest) = Some (S (length params)).
Proof.
intros Hp Hc. induction Hp as [|p params Hp _ IH]; simpl.
- now rewrite (isAlpha_not_param c Hc), Hc.
- now rewrite Hp, IH.
Qed.

Lemma oscTail_match body rest :
  ~ In BEL body -> oscTail (body ++ BEL :: rest) = Some (S (length body)).
Proof.
induction body as [|c body IH]; intros H; simpl; [reflexivity|].
destruct (Byte.eqb c BEL) eqn:E.
- apply eqb_eq in E. elim H. now left.
- rewrite IH; [reflexivity|]. intros H'. apply H. now right.
Qed.

(** X2. [stripAnsi] leaves text without an ESC byte as it is, and so
    does the recorder's pattern. *)
Theorem stripAnsi_plain_text s :
  ~ In ESC s ->
  stripAnsi s = s /\
  ReplaceAllEmpty Recorder.transcriptAnsiRegex s = s.
Proof.
intros H. unfold stripAnsi, ReplaceAllEmpty. split.
- rewrite <- (app_nil_r s) at 1.
  rewrite (deleteMatches_plain _ s [] ansiRegex_ESC H). apply app_nil_r.
- rewrite <- (app_nil_r s) at 1.
  rewrite (deleteMatches_plain _ s [] transcriptAnsiRegex_ESC H).
  apply app_nil_r.
Qed.

(** X3. After plain text, [stripAnsi] deletes a control sequence
    ESC [ parameters letter, and an operating-system command
    ESC ] ... BEL, as a whole and goes on with what follows. *)
Theorem stripAnsi_deletes_sequences pre params c body rest :
  ~ In ESC pre ->
  Forall (fun p => isParam p = true) params ->
  isAlpha c = true ->
  ~ In BEL body ->
  stripAnsi (pre ++ ESC :: x5b :: params ++ c :: rest)
    = pre ++ stripAnsi rest
  /\ stripAnsi (pre ++ ESC :: x5d :: body ++ BEL :: rest)
    = pre ++ stripAnsi rest.
Proof.
intros Hpre Hp Hc Hb. unfold stripAnsi, ReplaceAllEmpty. split.
- rewrite (deleteMatches_plain _ pre _ ansiRegex_ESC Hpre). f_equal.
  replace (ESC :: x5b :: params ++ c :: rest)
    with ((ESC :: x5b :: params ++ [c]) ++ rest)
    by (simpl; now rewrite <- app_assoc).
  apply deleteMatches_match; [|discriminate].
  simpl app. rewrite <- app_assoc. simpl app.
  unfold ansiRegex, orElse, reCSI. cbn [ESC].
  rewrite (csiTail_match params c rest Hp Hc). simpl.
  rewrite length_app. simpl. f_equal. lia.
- rewrite (deleteMatches_plain _ pre _ ansiRegex_ESC Hpre). f_equal.
  replace (ESC :: x5d :: body ++ BEL :: rest)
    with ((ESC :: x5d :: body ++ [BEL]) ++ rest)
    by (simpl; now rewrite <- app_assoc).
  apply deleteMatches_match; [|discriminate].
  simpl app. rewrite <- app_assoc. simpl app.
  unfold ansiRegex, orElse, reCSI, reOSC. cbn [ESC].
  rewrite (oscTail_match body rest Hb). simpl.
  rewrite length_app. simpl. f_equal. lia.
Qed.

(** *** Lines *)

(** The number of line feeds of a text. *)
Definition countLF (s : bytes) : nat := count_occ byte_eq_dec s LF.

Lemma splitLF_nonempty s : splitLF s <> [].
Proof.
destruct s as [|c s]; simpl; [discriminate|].
destruct (Byte.eqb c LF); [discriminate|].
destruct (splitLF s); discriminate.
Qed.

Lemma joinLF_cons l ls :
  ls <> [] -> joinLF (l :: ls) = l ++ LF :: joinLF ls.
Proof. destruct ls; [contradiction|reflexivity]. Qed.

(** [strings.Join(strings.Split(s, "\n"), "\n")] is [s]. *)
Lemma joinLF_splitLF s : joinLF (splitLF s) = s.
Proof.
induction s as [|c s IH]; [reflexivity|]. simpl.
destruct (Byte.eqb c LF) eqn:E.
- apply eqb_eq in E. subst c.
  rewrite joinLF_cons by apply splitLF_nonempty. now rewrite IH.
- pose proof (splitLF_nonempty s) as Hne.
  destruct (splitLF s) as [|l ls]; [contradiction|].
  destruct ls as [|l' ls].
  + simpl in *. now rewrite IH.
  + rewrite joinLF_cons in * by discriminate.
    rewrite <- IH. reflexivity.
Qed.

Lemma splitLF_length s : length (splitLF s) = S (countLF s).
Proof.
induction s as [|c s IH]; [reflexivity|]. simpl.
destruct (Byte.eqb c LF) eqn:E.
- apply eqb_eq in E. subst c. simpl length. rewrite IH. unfold countLF.
  now rewrite count_occ_cons_eq.
- apply eqb_neq in E. unfold countLF in *.
  rewrite count_occ_cons_neq by exact E.
  pose proof (splitLF_nonempty s) as Hne.
  destruct (splitLF s); [contradiction|exact IH].
Qed.

Lemma splitLF_lines s : Forall (fun l => ~ In LF l) (splitLF s).
Proof.
induction s as [|c s IH]; simpl; [constructor; [easy|constructor]|].
destruct (Byte.eqb c LF) eqn:E.
- constructor; [easy|exact IH].
- apply eqb_neq in E.
  destruct (splitLF s) as [|l ls]; [constructor; [|constructor]|].
  + intros [H|[]]. now subst.
  + inversion IH as [|? ? Hl Hls]; subst. constructor; [|exact Hls].
    intros [H|H]; [now subst|contradiction].
Qed.

Lemma countLF_app (s t : bytes) : countLF (s ++ t) = (countLF s + countLF t)%nat.
Proof. apply count_occ_app. Qed.

Lemma countLF_plain (s : bytes) : ~ In LF s -> countLF s = 0%nat.
Proof. apply count_occ_not_In. Qed.

Lemma countLF_joinLF ls :
  Forall (fun l => ~ In LF l) ls -> countLF (joinLF ls) = (length ls - 1)%nat.
Proof.
induction 1 as [|l ls Hl _ IH]; [reflexivity|].
destruct ls as [|l' ls].
- simpl. now apply countLF_plain.
- rewrite joinLF_cons by discriminate.
  rewrite countLF_app, (countLF_plain l Hl).
  unfold countLF at 1. rewrite count_occ_cons_eq by reflexivity.
  fold (countLF (joinLF (l' :: ls))). rewrite IH. simpl. lia.
Qed.

Lemma joinLF_skipn k : forall ls,
  exists pre, joinLF ls = pre ++ joinLF (skipn k ls).
Proof.
induction k as [|k IH]; intros ls; [now exists []|].
destruct ls as [|l ls]; [now exists []|].
simpl skipn. destruct (IH ls) as [pre E].
destruct ls as [|l' ls].
- exists l. rewrite skipn_nil. simpl. now rewrite app_nil_r.
- rewrite joinLF_cons by discriminate. rewrite E.
  exists (l ++ LF :: pre). now rewrite <- app_assoc.
Qed.

(** X4. [getLastLines text n] is the end of the text: it is a suffix of
    it, it holds at most [n - 1] line feeds, and it is the whole text
    when the text has fewer than [n] line feeds. *)
Theorem getLastLines_is_tail text n :
  (exists pre, text = pre ++ getLastLines text n)
  /\ (countLF (getLastLines text n) <= n - 1)%nat
  /\ ((countLF text < n)%nat -> getLastLines text n = text).
Proof.
unfold getLastLines. pose proof (splitLF_length text) as HL.
destruct (length (splitLF text) <=? n)%nat eqn:E.
- apply Nat.leb_le in E. repeat split; [now exists []|lia].
- apply Nat.leb_gt in E. repeat split.
  + unfold lastN.
    destruct (joinLF_skipn (length (splitLF text) - n) (splitLF text))
      as [pre H].
    exists pre. now rewrite <- H, joinLF_splitLF.
  + rewrite countLF_joinLF.
    * unfold lastN. rewrite length_skipn. lia.
    * unfold lastN.
      pose proof (splitLF_lines text) as HF.
      rewrite <- (firstn_skipn (length (splitLF text) - n) (splitLF text)) in HF.
      now apply Forall_app in HF.
  + intros H. lia.
Qed.

(** *** Prompts *)

Lemma dropWhile_spaces ws t :
  Forall (fun c => isReSpace c = true) ws ->
  dropWhile isReSpace (ws ++ t) = dropWhile isReSpace t.
Proof. induction 1 as [|c ws Hc _ IH]; [reflexivity|]. simpl. now rewrite Hc. Qed.

Lemma Forall_rev_spaces ws :
  Forall (fun c => isReSpace c = true) ws ->
  Forall (fun c => isReSpace c = true) (rev ws).
Proof. apply Forall_rev. Qed.

Lemma endsWithThenSpaces_true c p pre ws :
  isReSpace c = false ->
  Forall (fun c => isReSpace c = true) ws ->
  endsWithThenSpaces (p ++ [c]) (pre ++ (p ++ [c]) ++ ws) = true.
Proof.
intros Hc Hws. unfold endsWithThenSpaces.
assert (E : rev (pre ++ (p ++ [c]) ++ ws)
            = rev ws ++ (c :: rev p) ++ rev pre).
{ rewrite !rev_app_distr. simpl. now rewrite <- !app_assoc. }
rewrite E, dropWhile_spaces by now apply Forall_rev_spaces.
rewrite rev_unit. simpl dropWhile. rewrite Hc.
apply (hasPrefix_app (c :: rev p)).
Qed.

Lemma matchesPrompt_pattern pat text :
  In pat promptPatterns -> pat text = true -> matchesPrompt text = true.
Proof.
intros Hin H. unfold matchesPrompt. apply existsb_exists.
now exists pat.
Qed.

(** X5. Any text whose last character other than [\s] white space is
    ">", "$" or "❯" matches a prompt pattern, whatever comes before. *)
Theorem prompt_when_text_ends_in_marker pre ws :
  Forall (fun c => isReSpace c = true) ws ->
  matchesPrompt (pre ++ lit ">" ++ ws) = true
  /\ matchesPrompt (pre ++ lit "$" ++ ws) = true
  /\ matchesPrompt (pre ++ chevron ++ ws) = true.
Proof.
intros Hws. repeat split.
- apply (matchesPrompt_pattern (endsWithThenSpaces (lit ">")));
    [simpl; tauto|].
  apply (endsWithThenSpaces_true x3e [] pre ws); [reflexivity|exact Hws].
- apply (matchesPrompt_pattern (endsWithThenSpaces (lit "$")));
    [simpl; tauto|].
  apply (endsWithThenSpaces_true x24 [] pre ws); [reflexivity|exact Hws].
- apply (matchesPrompt_pattern (endsWithThenSpaces chevron));
    [simpl; tauto|].
  apply (endsWithThenSpaces_true xaf [xe2; x9d] pre ws);
    [reflexivity|exact Hws].
Qed.

(** X6. A text that contains one of the phrases "Do you want to
    proceed", "Press Enter to continue", "[Y/n]", "waiting for input" or
    "waiting for response" anywhere matches a prompt pattern. *)
Theorem prompt_when_text_contains_phrase pre post :
  matchesPrompt (pre ++ lit "Do you want to proceed" ++ post) = true
  /\ matchesPrompt (pre ++ lit "Press Enter to continue" ++ post) = true
  /\ matchesPrompt (pre ++ lit "[Y/n]" ++ post) = true
  /\ matchesPrompt (pre ++ lit "waiting for input" ++ post) = true
  /\ matchesPrompt (pre ++ lit "waiting for response" ++ post) = true.
Proof.
repeat split.
- apply (matchesPrompt_pattern (contains (lit "Do you want to proceed")));
    [simpl; tauto|]. apply contains_true. now exists pre, post.
- apply (matchesPrompt_pattern (contains (lit "Press Enter to continue")));
    [simpl; tauto|]. apply contains_true. now exists pre, post.
- apply (matchesPrompt_pattern (contains (lit "[Y/n]")));
    [simpl; tauto|]. apply contains_true. now exists pre, post.
- eapply matchesPrompt_pattern; [do 8 right; left; reflexivity|].
  apply orb_true_iff. left. apply contains_true. now exists pre, post.
- eapply matchesPrompt_pattern; [do 8 right; left; reflexivity|].
  apply orb_true_iff. right. apply contains_true. now exists pre, post.
Qed.

Lemma stripAnsi_plain_text_witness :
  ~ In ESC (lit "hello world") /\
  stripAnsi (lit "hello world") = lit "hello world".
Proof.
assert (H : ~ In ESC (lit "hello world"))
  by (simpl; intuition discriminate).
split; [exact H|]. exact (proj1 (stripAnsi_plain_text _ H)).
Defined.

Lemma stripAnsi_deletes_sequences_witness :
  stripAnsi (lit "ok " ++ ESC :: x5b :: lit "1;32" ++ x6d :: lit "green")
  = lit "ok " ++ stripAnsi (lit "green")
  /\ stripAnsi (lit "ok " ++ ESC :: x5d :: lit "0;Title" ++ BEL :: lit "green")
  = lit "ok " ++ stripAnsi (lit "green").
Proof.
apply (stripAnsi_deletes_sequences (lit "ok ") (lit "1;32") x6d
         (lit "0;Title") (lit "green")).
- simpl; intuition discriminate.
- repeat constructor.
- reflexivity.
- simpl; intuition discriminate.
Defined.

Lemma prompt_when_text_ends_in_marker_witness :
  matchesPrompt (lit "user@host:~" ++ lit "$" ++ [x20; LF]) = true.
Proof.
apply (prompt_when_text_ends_in_marker (lit "user@host:~") [x20; LF]).
repeat constructor.
Defined.

End DetectorTextFacts.

(** ** More on the detector as a state machine *)

Module DetectorRunFacts.
Import GoTime GoBytes Detector GoTimeFacts DetectorFacts.

(** The line buffer that [ProcessOutput] leaves: the last
    [MaxLineBufferSize] bytes of the old buffer followed by the data. *)
Definition window (buf data : bytes) : bytes :=
  lastN MaxLineBufferSize (buf ++ data).

Lemma lastN_all {T} n (s : list T) : (length s <= n)%nat -> lastN n s = s.
Proof.
intros H. unfold lastN. now replace (length s - n)%nat with 0%nat by lia.
Qed.

Lemma lastN_length {T} n (s : list T) :
  length (lastN n s) = Nat.min n (length s).
Proof. unfold lastN. rewrite length_skipn. lia. Qed.

Lemma lastN_suffix {T} n (s : list T) : exists pre, s = pre ++ lastN n s.
Proof.
exists (firstn (length s - n) s). unfold lastN.
symmetry. apply firstn_skipn.
Qed.

Lemma skipn_past {T} (x y : list T) k m :
  length x = k -> skipn (k + m) (x ++ y) = skipn m y.
Proof. intros <-. induction x as [|c x IH]; [reflexivity|exact IH]. Qed.

(** Cutting to the last [n] elements commutes with appending. *)
Lemma lastN_app {T} n (a b : list T) :
  lastN n (lastN n a ++ b) = lastN n (a ++ b).
Proof.
destruct (Nat.le_gt_cases (length a) n) as [H|H].
- now rewrite (lastN_all n a H).
- assert (Ek : lastN n a = skipn (length a - n) a) by reflexivity.
  remember (length a - n)%nat as k eqn:Hk.
  assert (El : length (skipn k a) = n) by (rewrite length_skipn; lia).
  assert (Ef : length (firstn k a) = k) by (rewrite length_firstn; lia).
  assert (E : a ++ b = firstn k a ++ (skipn k a ++ b))
    by (now rewrite app_assoc, firstn_skipn).
  rewrite Ek. unfold lastN. rewrite !length_app, El.
  replace (n + length b - n)%nat with (length b) by lia.
  replace (length a + length b - n)%nat with (k + length b)%nat by lia.
  rewrite E. symmetry. now apply skipn_past.
Qed.

Section Facts.
Context {A : Type}.
Implicit Types (sd : StatusDetector A) (now t : Time) (s : Status).

Lemma setStatus_lineBuffer sd now s :
  lineBuffer (fst (setStatus now s sd)) = lineBuffer sd.
Proof.
destruct (setStatus_cases sd now s) as [-> | (_ & _ & ->)]; reflexivity.
Qed.

Lemma setStatus_idleTimer sd now s :
  idleTimer (fst (setStatus now s sd)) = idleTimer sd.
Proof.
destruct (setStatus_cases sd now s) as [-> | (_ & _ & ->)]; reflexivity.
Qed.

(** The parts of the detector that [ProcessOutput] sets whatever the
    debounced setter decides. *)
Lemma ProcessOutput_live sd now data :
  stopped sd = false ->
  lineBuffer (fst (ProcessOutput now data sd)) = window (lineBuffer sd) data
  /\ lastOutputAt (fst (ProcessOutput now data sd)) = now
  /\ idleTimer (fst (ProcessOutput now data sd))
     = Some (AfterFunc now IdleTimeout)
  /\ stopped (fst (ProcessOutput now data sd)) = false.
Proof.
intros Hs. unfold ProcessOutput. rewrite Hs.
assert (W : (if (MaxLineBufferSize <? length (lineBuffer sd ++ data))%nat
             then lastN MaxLineBufferSize (lineBuffer sd ++ data)
             else lineBuffer sd ++ data) = window (lineBuffer sd) data).
{ unfold window.
  destruct (MaxLineBufferSize <? length (lineBuffer sd ++ data))%nat eqn:E;
    [reflexivity|].
  apply Nat.ltb_ge in E. now rewrite lastN_all. }
match goal with
| |- context [if matchesPrompt ?x then _ else _] => destruct (matchesPrompt x)
end;
  rewrite setStatus_lineBuffer, setStatus_lastOutputAt, setStatus_idleTimer,
    setStatus_stopped;
  unfold resetIdleTimer; simpl; rewrite Hs; simpl; rewrite Hs;
  (split; [exact W|now repeat split]).
Qed.


(** *** The line buffer *)

Lemma step_lineBuffer_bound sd now e :
  (length (lineBuffer sd) <= MaxLineBufferSize)%nat ->
  (length (lineBuffer (fst (step now e sd))) <= MaxLineBufferSize)%nat.
Proof.
intros H. destruct e; simpl step.
- destruct (stopped sd) eqn:Hs.
  + unfold ProcessOutput. now rewrite Hs.
  + destruct (ProcessOutput_live sd now data Hs) as [-> _].
    unfold window. rewrite lastN_length. lia.
- unfold SetExited. now rewrite setStatus_lineBuffer.
- exact H.
- destruct (idleTimerFunc_cases sd now) as [-> | (_ & _ & _ & ->)];
    [exact H|now rewrite setStatus_lineBuffer].
Qed.

(** X7. The line buffer of a detector never holds more than
    [MaxLineBufferSize] (4096) bytes; on a detector that has not been
    stopped, [ProcessOutput] makes it the old buffer followed by the
    data, all of it if that fits and else its last 4096 bytes. *)
Theorem lineBuffer_bounded t sd now data :
  Reachable t sd ->
  stopped sd = false ->
  (length (lineBuffer sd) <= MaxLineBufferSize)%nat
  /\ (length (lineBuffer (fst (ProcessOutput now data sd)))
      = Nat.min MaxLineBufferSize (length (lineBuffer sd ++ data)))%nat
  /\ (exists dropped,
        lineBuffer sd ++ data
        = dropped ++ lineBuffer (fst (ProcessOutput now data sd))).
Proof.
intros HR Hs. split; [|split].
- clear Hs. induction HR as [n cb _ | t sd n e _ IH _].
  + simpl. apply Nat.le_0_l.
  + now apply step_lineBuffer_bound.
- destruct (ProcessOutput_live sd now data Hs) as [-> _].
  apply lastN_length.
- destruct (ProcessOutput_live sd now data Hs) as [-> _].
  apply lastN_suffix.
Qed.

(** X8. The line buffer does not depend on how the output is cut into
    chunks: feeding [d1] and then [d2] leaves the same buffer as feeding
    [d1 ++ d2] at once. *)
Theorem lineBuffer_chunking sd now1 now2 now d1 d2 :
  stopped sd = false ->
  lineBuffer (fst (ProcessOutput now2 d2 (fst (ProcessOutput now1 d1 sd))))
  = lineBuffer (fst (ProcessOutput now (d1 ++ d2) sd)).
Proof.
intros Hs.
destruct (ProcessOutput_live sd now1 d1 Hs) as (E1 & _ & _ & Hs1).
destruct (ProcessOutput_live _ now2 d2 Hs1) as [-> _].
destruct (ProcessOutput_live sd now (d1 ++ d2) Hs) as [-> _].
rewrite E1. unfold window. rewrite lastN_app. now rewrite app_assoc.
Qed.

(** *** Output and the idle timer *)

(** X9. Every output postpones idleness by a full timeout: after
    [ProcessOutput] at [now] the idle timer is pending for
    [now + IdleTimeout], and a timer function that runs earlier than that
    (an older timer that could not be stopped any more) changes nothing
    and dispatches nothing. *)
Theorem output_postpones_idle sd now data now' :
  stopped sd = false ->
  now' - now < IdleTimeout ->
  idleTimer (fst (ProcessOutput now data sd))
    = Some (mkTimer true (now + IdleTimeout))
  /\ idleTimerFunc now' (fst (ProcessOutput now data sd))
     = (fst (ProcessOutput now data sd), []).
Proof.
intros Hs Hlt.
destruct (ProcessOutput_live sd now data Hs) as (_ & Ho & Ht & Hs').
split; [exact Ht|].
destruct (idleTimerFunc_cases (fst (ProcessOutput now data sd)) now')
  as [E | (_ & _ & Hq & _)]; [exact E|].
exfalso. rewrite Ho in Hq. rewrite IdleTimeout_value in *.
unfold Since, Sub, maxDuration, minDuration in Hq. lia.
Qed.

(** X10. [ProcessOutput] does not respect Exited: on a detector that
    has not been stopped, output that arrives once the debounce interval
    has passed since the change to Exited moves the status to Active or
    NeedsInput again. *)
Theorem output_leaves_Exited sd now data :
  stopped sd = false ->
  currentStatus sd = StatusExited ->
  DebounceInterval <= Since now (lastChangeAt sd) ->
  currentStatus (fst (ProcessOutput now data sd)) = StatusActive
  \/ currentStatus (fst (ProcessOutput now data sd)) = StatusNeedsInput.
Proof.
intros Hs He Hd. unfold ProcessOutput. rewrite Hs.
match goal with
| |- context [if matchesPrompt ?x then _ else _] => destruct (matchesPrompt x)
end;
  (rewrite setStatus_commit;
   [ simpl; auto
   | unfold resetIdleTimer; simpl; rewrite Hs; simpl; rewrite He; discriminate
   | unfold resetIdleTimer; simpl; rewrite Hs; simpl; exact Hd ]).
Qed.

(** *** Notifications *)

(** The notifications lead from one status to another: each starts
    where the one before ended, and none stays where it is. *)
Fixpoint chain (from : Status) (notes : list (Status * Status)) (to : Status)
    : Prop :=
  match notes with
  | [] => from = to
  | (a, b) :: rest => a = from /\ a <> b /\ chain b rest to
  end.

Lemma chain_app a p1 b p2 c :
  chain a p1 b -> chain b p2 c -> chain a (p1 ++ p2) c.
Proof.
revert a. induction p1 as [|[x y] p1 IH]; intros a H1 H2; simpl in *.
- now subst.
- destruct H1 as (-> & Hne & H1). repeat split; trivial. now apply IH.
Qed.

Definition calls (f : Status -> Status -> A) (notes : list (Status * Status))
    : list A :=
  map (fun p => f (fst p) (snd p)) notes.

Lemma setStatus_notes sd f now s :
  callback sd = Some f ->
  exists notes,
    snd (setStatus now s sd) = calls f notes /\
    chain (currentStatus sd) notes (currentStatus (fst (setStatus now s sd))).
Proof.
intros Hcb.
destruct (setStatus_cases sd now s) as [-> | (Hne & _ & ->)].
- now exists [].
- exists [(currentStatus sd, s)]. rewrite Hcb. simpl.
  repeat split. congruence.
Qed.

Lemma step_notes sd f now e :
  callback sd = Some f ->
  exists notes,
    snd (step now e sd) = calls f notes /\
    chain (currentStatus sd) notes (currentStatus (fst (step now e sd))).
Proof.
intros Hcb. destruct e; simpl step.
- unfold ProcessOutput. destruct (stopped sd) eqn:Hs; [now exists []|].
  match goal with
  | |- context [if matchesPrompt ?x then _ else _] => destruct (matchesPrompt x)
  end;
    match goal with
    | |- context [setStatus ?n ?s ?d] =>
        destruct (setStatus_notes d f n s) as (notes & H1 & H2);
        [unfold resetIdleTimer; simpl; rewrite Hs; exact Hcb|];
        exists notes; split; [exact H1|];
        replace (currentStatus d) with (currentStatus sd) in H2
          by (unfold resetIdleTimer; simpl; rewrite Hs; reflexivity);
        exact H2
    end.
- apply setStatus_notes, Hcb.
- now exists [].
- destruct (idleTimerFunc_cases sd now) as [-> | (_ & _ & _ & ->)];
    [now exists []|apply setStatus_notes, Hcb].
Qed.

(** X11. With a callback registered, the notifications of any run form
    a chain: the first starts at the status the run started with, each
    next one starts at the status the one before ended with, the last
    ends at the status the run ends with, and none has the same status
    on both sides. *)
Theorem notifications_form_a_chain evs sd (f : Status -> Status -> A) :
  callback sd = Some f ->
  exists notes,
    snd (run evs sd) = calls f notes /\
    chain (currentStatus sd) notes (currentStatus (fst (run evs sd))).
Proof.
revert sd. induction evs as [|[now e] evs IH]; intros sd Hcb.
- now exists [].
- simpl. destruct (step_notes sd f now e Hcb) as (n1 & H1 & C1).
  pose proof (step_callback sd now e) as Hc.
  destruct (step now e sd) as [sd1 out1]. simpl in *.
  destruct (IH sd1) as (n2 & H2 & C2); [congruence|].
  destruct (run evs sd1) as [sd2 out2]. simpl in *.
  exists (n1 ++ n2). split.
  + unfold calls in *. rewrite map_app. congruence.
  + now apply (chain_app _ n1 (currentStatus sd1)).
Qed.

(** *** After [Stop] *)

Lemma step_after_Stop sd now e :
  e <> EvSetExited ->
  step now e (fst (Stop sd)) = (fst (Stop sd), []).
Proof.
intros He. destruct e; simpl step.
- now apply ProcessOutput_stopped.
- contradiction.
- apply Stop_again_noop.
- now apply idleTimerFunc_stopped.
Qed.

(** X12. After [Stop], [ProcessOutput], a further [Stop] and the idle
    timer's function change nothing and dispatch nothing, in any number
    and order; [SetExited] is the one call that still acts. *)
Theorem only_SetExited_acts_after_Stop sd evs :
  Forall (fun ev => snd ev <> EvSetExited) evs ->
  run evs (fst (Stop sd)) = (fst (Stop sd), []).
Proof.
induction 1 as [|[now e] evs He _ IH]; [reflexivity|].
cbn [run]. simpl in He. rewrite (step_after_Stop sd now e He). now rewrite IH.
Qed.

(** *** Who arms the idle timer *)

Definition isOutput (e : Event) : bool :=
  match e with EvProcessOutput _ => true | _ => false end.

Lemma step_idleTimer sd now e :
  isOutput e = false ->
  idleTimer (fst (step now e sd)) = idleTimer sd \/
  idleTimer (fst (step now e sd)) = option_map StopTimer (idleTimer sd).
Proof.
intros He. destruct e; simpl step; try discriminate He.
- left. apply setStatus_idleTimer.
- right. reflexivity.
- left.
  destruct (idleTimerFunc_cases sd now) as [-> | (_ & _ & _ & ->)];
    [reflexivity|apply setStatus_idleTimer].
Qed.

(** X19. Only [ProcessOutput] arms the idle timer. The timer's own
    function does not start a new timer when it has run, and neither
    does [SetExited]: over any run without output the timer of the
    detector stays the one it was, at most stopped by [Stop]. *)
Theorem idle_timer_armed_only_by_output sd evs :
  Forall (fun ev => isOutput (snd ev) = false) evs ->
  idleTimer (fst (run evs sd)) = idleTimer sd \/
  idleTimer (fst (run evs sd)) = option_map StopTimer (idleTimer sd).
Proof.
intros H. revert sd. induction H as [|[now e] evs He _ IH]; intros sd.
- now left.
- cbn [run]. simpl in He.
  pose proof (step_idleTimer sd now e He) as H1.
  destruct (step now e sd) as [sd1 out1]. simpl in H1.
  specialize (IH sd1). destruct (run evs sd1) as [sd2 out2]. simpl in *.
  destruct IH as [-> | ->], H1 as [-> | ->]; auto.
  right. now destruct (idleTimer sd).
Qed.

End Facts.

(** *** Concrete runs *)

Definition exited : StatusDetector (Status * Status) :=
  fst (SetExited (unixEpoch + Second) fresh).

Lemma lineBuffer_bounded_witness :
  stopped fresh = false /\
  length (lineBuffer
            (fst (ProcessOutput (unixEpoch + Second) (lit "abc") fresh)))
  = Nat.min MaxLineBufferSize 3.
Proof.
split; [reflexivity|].
assert (HR : Reachable unixEpoch fresh)
  by (apply Reach_new; apply Z.le_refl).
destruct (lineBuffer_bounded unixEpoch fresh (unixEpoch + Second) (lit "abc")
            HR eq_refl) as (_ & H & _).
exact H.
Defined.

Lemma lineBuffer_chunking_witness :
  lineBuffer
    (fst (ProcessOutput (unixEpoch + 2) (lit "lo")
            (fst (ProcessOutput (unixEpoch + 1) (lit "hel") fresh))))
  = lineBuffer (fst (ProcessOutput (unixEpoch + 2) (lit "hello") fresh)).
Proof.
apply (lineBuffer_chunking fresh (unixEpoch + 1) (unixEpoch + 2)
         (unixEpoch + 2) (lit "hel") (lit "lo")).
reflexivity.
Defined.

Lemma output_postpones_idle_witness :
  idleTimerFunc (unixEpoch + 10 * Second)
    (fst (ProcessOutput (unixEpoch + Second) (lit "abc") fresh))
  = (fst (ProcessOutput (unixEpoch + Second) (lit "abc") fresh), []).
Proof.
destruct (output_postpones_idle fresh (unixEpoch + Second) (lit "abc")
            (unixEpoch + 10 * Second) eq_refl) as [_ H].
- reflexivity.
- exact H.
Defined.

Lemma output_leaves_Exited_witness :
  currentStatus exited = StatusExited /\
  (currentStatus
     (fst (ProcessOutput (unixEpoch + 2 * Second) (lit "abc") exited))
   = StatusActive \/
   currentStatus
     (fst (ProcessOutput (unixEpoch + 2 * Second) (lit "abc") exited))
   = StatusNeedsInput).
Proof.
split; [reflexivity|].
apply (output_leaves_Exited exited (unixEpoch + 2 * Second) (lit "abc")).
- reflexivity.
- reflexivity.
- vm_compute; discriminate.
Defined.

Lemma notifications_form_a_chain_witness :
  exists notes,
    snd (run [(unixEpoch + Second, EvProcessOutput (chevron ++ [x20]));
              (unixEpoch + 2 * Second, EvSetExited)] fresh)
    = calls note notes /\
    chain StatusActive notes
      (currentStatus
         (fst (run [(unixEpoch + Second, EvProcessOutput (chevron ++ [x20]));
                    (unixEpoch + 2 * Second, EvSetExited)] fresh))).
Proof.
apply (notifications_form_a_chain
         [(unixEpoch + Second, EvProcessOutput (chevron ++ [x20]));
          (unixEpoch + 2 * Second, EvSetExited)] fresh note).
reflexivity.
Defined.

Lemma only_SetExited_acts_after_Stop_witness :
  run [(unixEpoch + Second, EvProcessOutput (chevron ++ [x20]));
       (unixEpoch + 2 * Second, EvStop);
       (unixEpoch + 20 * Second, EvIdleTimer)] (fst (Stop fresh))
  = (fst (Stop fresh), []).
Proof.
apply (only_SetExited_acts_after_Stop fresh).
repeat constructor; discriminate.
Defined.

Lemma idle_timer_armed_only_by_output_witness :
  idleTimer
    (fst (run [(unixEpoch + 10 * Second, EvIdleTimer);
               (unixEpoch + 30 * Second, EvIdleTimer);
               (unixEpoch + 40 * Second, EvSetExited)] fresh))
  = idleTimer fresh \/
  idleTimer
    (fst (run [(unixEpoch + 10 * Second, EvIdleTimer);
               (unixEpoch + 30 * Second, EvIdleTimer);
               (unixEpoch + 40 * Second, EvSetExited)] fresh))
  = option_map StopTimer (idleTimer fresh).
Proof.
apply (idle_timer_armed_only_by_output fresh).
repeat constructor.
Defined.

End DetectorRunFacts.

(** ** More on the recorder *)

Module RecorderRunFacts.
Import GoTime GoBytes Recorder GoBytesFacts RecorderFacts.

(** *** Cleaning never lengthens, and keeps plain clean text *)

Lemma deleteMatches_length re : forall s skip,
  (length (deleteMatches re skip s) <= length s)%nat.
Proof.
induction s as [|c s IH]; intros skip; simpl; [lia|].
destruct skip as [|k].
- destruct (re (c :: s)) as [[|k]|]; simpl;
    try (specialize (IH 0%nat); lia).
  specialize (IH k). lia.
- specialize (IH k). lia.
Qed.


Lemma squeeze_length s : (length (squeezeBlankLines s) <= length s)%nat.
Proof.
induction s as [|a s IH]; [simpl; lia|]. rewrite squeeze_cons.
destruct (Byte.eqb a LF && hasPrefix [LF; LF] s)%bool; simpl; lia.
Qed.


Lemma TrimSpace_length s : (length (TrimSpace s) <= length s)%nat.
Proof.
destruct (TrimSpace_infix s) as (pre & post & E).
rewrite E at 2. rewrite !length_app. lia.
Qed.


Lemma removeCR_length s : (length (removeCR s) <= length s)%nat.
Proof. apply filter_length_le. Qed.

Lemma cleanForTranscript_length text :
  (length (cleanForTranscript text) <= length text)%nat.
Proof.
unfold cleanForTranscript. rewrite collapseBlankLines_squeeze.
etransitivity; [apply TrimSpace_length|].
etransitivity; [apply squeeze_length|].
etransitivity; [apply removeCR_length|].
apply deleteMatches_length.
Qed.




(** *** Animation frames *)

Lemma allSpinner_ascii s :
  Forall (fun c => In c [x7c; x2f; x2d; x5c; x20; x09]) s ->
  allSpinner 0 s = true.
Proof.
induction 1 as [|c s Hc _ IH]; [reflexivity|].
assert (E : spinnerWidth (c :: s) = 1%nat).
{ simpl in Hc. destruct Hc as [<-|[<-|[<-|[<-|[<-|[<-|[]]]]]]]; reflexivity. }
cbn [allSpinner]. now rewrite E.
Qed.

Lemma dropWhile_digits ds rest :
  Forall (fun c => isDigit c = true) ds ->
  dropWhile isDigit (ds ++ x25 :: rest) = x25 :: rest.
Proof. induction 1 as [|c ds Hc _ IH]; [reflexivity|]. simpl. now rewrite Hc. Qed.

Lemma isDigit_not_space c : isDigit c = true -> isReSpace c = false.
Proof. destruct c; try reflexivity; discriminate. Qed.

(** X14. What counts as an animation frame: any non-empty text made of
    the characters | / - \ space and tab only, and any text that starts
    with digits followed by a percent sign, whatever comes after; a text
    that starts with a letter never does. *)
Theorem isAnimationFrame_cases :
  (forall s, s <> [] ->
     Forall (fun c => In c [x7c; x2f; x2d; x5c; x20; x09]) s ->
     isAnimationFrame s = true)
  /\ (forall d ds rest,
        Forall (fun c => isDigit c = true) (d :: ds) ->
        isAnimationFrame ((d :: ds) ++ x25 :: rest) = true)
  /\ (forall c s, isAlpha c = true -> isAnimationFrame (c :: s) = false).
Proof.
split; [|split].
- intros s Hne H. unfold isAnimationFrame, animationPatterns.
  cbn [existsb].
  destruct s as [|c s]; [contradiction|].
  unfold reSpinner. now rewrite (allSpinner_ascii _ H).
- intros d ds rest H. inversion H as [|? ? Hd Hds]; subst.
  assert (E : reProgress ((d :: ds) ++ x25 :: rest) = true).
  { unfold reProgress. cbn [app dropWhile].
    rewrite (isDigit_not_space d Hd), Hd.
    now rewrite (dropWhile_digits ds rest Hds). }
  unfold isAnimationFrame, animationPatterns. cbn [existsb].
  rewrite E. cbn [orb]. apply orb_true_r.
- intros c s Hc. unfold isAnimationFrame, animationPatterns, existsb.
  assert (E1 : reSpinner (c :: s) = false).
  { assert (W : spinnerWidth (c :: s) = 0%nat)
      by (destruct c; try discriminate Hc;
          destruct s as [|b [|c' s]]; reflexivity).
    unfold reSpinner. cbn [allSpinner]. now rewrite W. }
  assert (E2 : reProgress (c :: s) = false).
  { unfold reProgress. destruct c; try discriminate Hc; reflexivity. }
  now rewrite E1, E2.
Qed.

Section Facts.
Context {A : Type}.
Variable m : TranscriptEntry -> option bytes.
Implicit Types (tr : TranscriptRecorder A) (now : Time).

(** *** One line per entry *)

Definition marshals (e : TranscriptEntry) : bool :=
  match m e with Some _ => true | None => false end.

Lemma countLF_line (j : bytes) :
  ~ In LF j ->
  count_occ byte_eq_dec (j ++ [LF]) LF = 1%nat.
Proof.
intros H. rewrite count_occ_app.
rewrite (proj1 (count_occ_not_In _ _ _) H). simpl.
now destruct (byte_eq_dec LF LF).
Qed.

(** X15. The batch is JSONL: with a [json.Marshal] whose output holds
    no line feed, the batch of a buffer has one line feed per entry that
    could be marshalled, entries that fail are skipped one by one, and
    the batch of two buffers in a row is the two batches in a row, so
    the order of arrival is the order of the lines. *)
Theorem serialize_one_line_per_entry es1 es2 :
  (forall e j, m e = Some j -> ~ In LF j) ->
  count_occ byte_eq_dec (serialize m es1) LF
    = length (filter marshals es1)
  /\ serialize m (es1 ++ es2) = serialize m es1 ++ serialize m es2
  /\ (forall e, m e = None -> serialize m (e :: es2) = serialize m es2).
Proof.
intros Hm. split; [|split].
- induction es1 as [|e es IH]; [reflexivity|].
  simpl. unfold marshals at 1. destruct (m e) as [j|] eqn:E; [|exact IH].
  change (j ++ LF :: serialize m es) with (j ++ [LF] ++ serialize m es).
  rewrite app_assoc, count_occ_app, (countLF_line j (Hm e j E)), IH.
  reflexivity.
- apply serialize_app.
- intros e E. simpl. now rewrite E.
Qed.

(** *** The byte counter *)

Definition payload (e : Event) : bytes :=
  match e with
  | EvRecordOutput data | EvRecordInput data => data
  | _ => []
  end.

Definition counterOK tr : Prop :=
  0 <= bufferBytes tr < TranscriptFlushThreshold /\
  (buffer tr = [] -> bufferBytes tr = 0).

Lemma flush_counterOK tr : counterOK tr -> counterOK (fst (flush m tr)).
Proof.
intros H. destruct (buffer tr) eqn:E.
- now rewrite flush_empty.
- rewrite flush_nonempty by congruence. unfold counterOK. simpl.
  unfold TranscriptFlushThreshold. split; [lia|reflexivity].
Qed.

Lemma appendEntry_counterOK e tr :
  counterOK tr ->
  len (Text e) <= maxInt - TranscriptFlushThreshold ->
  counterOK (fst (appendEntry m e tr)).
Proof.
intros [H1 H2] Hl. unfold appendEntry. cbn [bufferBytes with_buffer].
assert (0 <= len (Text e)) by (unfold len; lia).
unfold TranscriptFlushThreshold, maxInt in *.
rewrite wrapInt_small by (unfold maxInt; lia).
destruct (1024 <=? bufferBytes tr + len (Text e)) eqn:E.
- rewrite flush_nonempty by (simpl; now destruct (buffer tr)).
  unfold counterOK, TranscriptFlushThreshold. simpl. split; [lia|reflexivity].
- apply Z.leb_gt in E. unfold counterOK, TranscriptFlushThreshold. simpl.
  split; [lia|]. now destruct (buffer tr).
Qed.

Lemma len_clean data : len (cleanForTranscript data) <= len data.
Proof. unfold len. pose proof (cleanForTranscript_length data). lia. Qed.

Lemma step_counterOK tr now e :
  counterOK tr ->
  len (payload e) <= maxInt - TranscriptFlushThreshold ->
  counterOK (fst (step m now e tr)).
Proof.
intros H Hl. destruct e; simpl step; simpl payload in Hl.
- unfold RecordOutput. destruct (stopped tr); [exact H|].
  pose proof (len_clean data) as Hc.
  destruct (cleanForTranscript data) as [|c s] eqn:Ec; [exact H|].
  match goal with |- context [if ?b then _ else _] => destruct b end;
    [exact H|].
  apply appendEntry_counterOK; [|cbn [Text]; lia].
  destruct H as [H1 H2].
  destruct (0 <? dupCount tr); unfold counterOK; simpl;
    (split; [exact H1|]); [|exact H2].
  intros E. now destruct (buffer tr).
- unfold RecordInput. destruct (stopped tr); [exact H|].
  destruct (isControlKey data); [exact H|].
  now apply appendEntry_counterOK.
- unfold flushTimerFunc. destruct (stopped tr); [exact H|].
  pose proof (flush_counterOK tr H) as H'.
  destruct (flush m tr) as [tr1 out]. exact H'.
- rewrite Stop_unfold. now apply flush_counterOK.
Qed.

(** X16. The byte counter stays below the flush threshold: after any
    run of events on a new recorder the counter is at least 0 and less
    than 1024, and it is 0 when the buffer is empty. (Payloads are taken
    to be shorter than the largest Go [int] less the threshold, as every
    slice is.) *)
Theorem bufferBytes_below_threshold now0 (fn : option (bytes -> A)) evs :
  Forall (fun ev => len (payload (snd ev)) <= maxInt - TranscriptFlushThreshold)
         evs ->
  0 <= bufferBytes (fst (run m evs (NewTranscriptRecorder now0 fn)))
    < TranscriptFlushThreshold
  /\ (buffer (fst (run m evs (NewTranscriptRecorder now0 fn))) = [] ->
      bufferBytes (fst (run m evs (NewTranscriptRecorder now0 fn))) = 0).
Proof.
intros H.
assert (G : forall tr, counterOK tr -> counterOK (fst (run m evs tr))).
{ induction H as [|[now e] evs He _ IH]; intros tr Htr; [exact Htr|].
  cbn [run]. pose proof (step_counterOK tr now e Htr He) as H1.
  destruct (step m now e tr) as [tr1 out1]. specialize (IH tr1 H1).
  destruct (run m evs tr1) as [tr2 out2]. exact IH. }
apply G. unfold counterOK. simpl. unfold TranscriptFlushThreshold.
split; [lia|reflexivity].
Qed.


(** *** Nothing is lost *)

(** The entries that a run of events records, when no output is an
    animation frame: one per input that is not a control key, one per
    output whose cleaned text is not empty. *)
Definition entryOf (ev : Time * Event) : list TranscriptEntry :=
  match snd ev with
  | EvRecordInput data =>
      if isControlKey data then []
      else [mkEntry (UnixMilli (fst ev)) (lit "input") data]
  | EvRecordOutput data =>
      match cleanForTranscript data with
      | [] => []
      | c :: s => [mkEntry (UnixMilli (fst ev)) (lit "output") (c :: s)]
      end
  | _ => []
  end.

Definition entriesOf (evs : list (Time * Event)) : list TranscriptEntry :=
  flat_map entryOf evs.

(** Inputs, timer flushes, and outputs that are no animation frames. *)
Definition plainEvent (e : Event) : Prop :=
  match e with
  | EvRecordOutput data => isAnimationFrame (cleanForTranscript data) = false
  | EvStop => False
  | _ => True
  end.

Definition live (f : bytes -> A) tr : Prop :=
  stopped tr = false /\ flushFn tr = Some f /\ dupCount tr <= 0.

Lemma flush_journal tr f :
  flushFn tr = Some f ->
  exists batches,
    snd (flush m tr) = map f batches /\
    concat batches ++ serialize m (buffer (fst (flush m tr)))
    = serialize m (buffer tr).
Proof.
intros Hf. destruct (buffer tr) as [|e es] eqn:E.
- rewrite flush_empty by exact E. exists []. simpl. now rewrite E.
- rewrite flush_nonempty by congruence. rewrite Hf, E.
  destruct (serialize m (e :: es)) as [|c l] eqn:Es.
  + exists []. simpl. now split.
  + exists [c :: l]. simpl. now rewrite !app_nil_r.
Qed.

Lemma appendEntry_journal e tr f :
  flushFn tr = Some f ->
  exists batches,
    snd (appendEntry m e tr) = map f batches /\
    concat batches ++ serialize m (buffer (fst (appendEntry m e tr)))
    = serialize m (buffer tr) ++ serialize m [e].
Proof.
intros Hf. unfold appendEntry.
match goal with |- context [if ?c then _ else _] => destruct c end.
- match goal with |- context [flush m ?x] =>
    destruct (flush_journal x f Hf) as (bs & H1 & H2)
  end.
  exists bs. split; [exact H1|]. rewrite H2. simpl buffer.
  apply serialize_app.
- exists []. simpl. split; [reflexivity|apply serialize_app].
Qed.

Lemma appendEntry_live e tr f :
  live f tr -> live f (fst (appendEntry m e tr)).
Proof.
intros (H1 & H2 & H3). unfold appendEntry.
match goal with |- context [if ?c then _ else _] => destruct c end.
- match goal with |- context [flush m ?x] =>
    destruct (flush_keeps m x) as (K1 & _ & K3 & K4 & _)
  end.
  unfold live. rewrite K1, K3, K4. now repeat split.
- now repeat split.
Qed.

Lemma step_journal tr f now e :
  live f tr -> plainEvent e ->
  live f (fst (step m now e tr)) /\
  exists batches,
    snd (step m now e tr) = map f batches /\
    concat batches ++ serialize m (buffer (fst (step m now e tr)))
    = serialize m (buffer tr) ++ serialize m (entryOf (now, e)).
Proof.
intros HL Hp. pose proof HL as (Hs & Hf & Hd).
assert (Nop : live f tr /\
              exists batches : list bytes,
                @nil A = map f batches /\
                concat batches ++ serialize m (buffer tr)
                = serialize m (buffer tr) ++ serialize m []).
{ split; [exact HL|]. exists []. simpl. now rewrite app_nil_r. }
destruct e; simpl step; unfold entryOf; cbn [snd fst].
- simpl in Hp. unfold RecordOutput. rewrite Hs.
  destruct (cleanForTranscript data) as [|c s] eqn:Ec; [exact Nop|].
  rewrite Hp. cbn [andb].
  assert ((0 <? dupCount tr) = false) as -> by (apply Z.ltb_ge; exact Hd).
  split.
  + apply appendEntry_live. now repeat split.
  + apply (appendEntry_journal _ (with_lastOutput (c :: s) tr) f Hf).
- unfold RecordInput. rewrite Hs.
  destruct (isControlKey data); [exact Nop|].
  split; [now apply appendEntry_live|now apply appendEntry_journal].
- unfold flushTimerFunc. rewrite Hs.
  destruct (flush_journal tr f Hf) as (bs & H1 & H2).
  destruct (flush_keeps m tr) as (K1 & _ & K3 & K4 & _).
  destruct (flush m tr) as [tr1 out]. simpl in *.
  split; [unfold live; simpl; rewrite K1, K3, K4; now repeat split|].
  exists bs. split; [exact H1|]. now rewrite app_nil_r.
- contradiction.
Qed.

Lemma run_journal f evs : forall tr,
  live f tr ->
  Forall (fun ev => plainEvent (snd ev)) evs ->
  live f (fst (run m evs tr)) /\
  exists batches,
    snd (run m evs tr) = map f batches /\
    concat batches ++ serialize m (buffer (fst (run m evs tr)))
    = serialize m (buffer tr) ++ serialize m (entriesOf evs).
Proof.
induction evs as [|[now e] evs IH]; intros tr HL Hp.
- split; [exact HL|]. exists []. simpl. now rewrite app_nil_r.
- inversion Hp as [|? ? He Hrest]; subst. simpl in He.
  destruct (step_journal tr f now e HL He) as (L1 & b1 & O1 & J1).
  cbn [run]. destruct (step m now e tr) as [tr1 out1]. simpl in *.
  destruct (IH tr1 L1 Hrest) as (L2 & b2 & O2 & J2).
  destruct (run m evs tr1) as [tr2 out2]. simpl in *.
  split; [exact L2|]. exists (b1 ++ b2). split.
  + rewrite map_app. congruence.
  + rewrite concat_app, <- app_assoc, J2, app_assoc, J1.
    unfold entriesOf. simpl flat_map. rewrite (serialize_app m (entryOf (now, e))).
    now rewrite <- app_assoc.
Qed.

(** X17. Nothing is lost and nothing changes place: on a recorder that
    has not been stopped, has a flush function and no repeat pending,
    run any inputs, timer flushes and outputs that are no animation
    frames. Then the batches handed off so far, in order, followed by
    the serialization of what is still buffered, are the serialization
    of what was buffered before followed by one entry per recorded
    event in the order of arrival; and a [Stop] after the run hands off
    the rest, leaving nothing behind. *)
Theorem transcript_complete_and_ordered tr (f : bytes -> A) evs now :
  stopped tr = false ->
  flushFn tr = Some f ->
  dupCount tr <= 0 ->
  Forall (fun ev => plainEvent (snd ev)) evs ->
  (exists batches,
     snd (run m evs tr) = map f batches /\
     concat batches ++ serialize m (buffer (fst (run m evs tr)))
     = serialize m (buffer tr) ++ serialize m (entriesOf evs))
  /\ (exists batches,
        snd (run m (evs ++ [(now, EvStop)]) tr) = map f batches /\
        concat batches
        = serialize m (buffer tr) ++ serialize m (entriesOf evs)).
Proof.
intros Hs Hf Hd Hp.
destruct (run_journal f evs tr (conj Hs (conj Hf Hd)) Hp)
  as ((L1 & L2 & L3) & bs & O & J).
split; [now exists bs|].
rewrite run_app. destruct (run m evs tr) as [tr1 out1]. simpl in *.
rewrite Stop_unfold.
match goal with |- context [flush m ?x] =>
  destruct (flush_journal x f L2) as (b2 & O2 & J2);
  pose proof (flush_buffer m x) as Hb
end.
destruct (flush m _) as [tr2 out2]. simpl in *.
exists (bs ++ b2). split.
- rewrite app_nil_r, map_app. congruence.
- rewrite Hb in J2. simpl in J2. rewrite app_nil_r in J2.
  rewrite concat_app, J2. exact J.
Qed.

(** X18. A flush does not interrupt a run of repeated frames: after
    the periodic flush an output that cleans to the animation frame
    recorded last is still counted as a repeat and stores nothing, so
    the summary of the run lands in a later batch than its first
    frame. *)
Theorem repeats_continue_after_flush tr now now' data :
  stopped tr = false ->
  isAnimationFrame (cleanForTranscript data) = true ->
  cleanForTranscript data = lastOutput tr ->
  RecordOutput m now' data (fst (flushTimerFunc m now tr))
  = (with_dupCount (wrapInt (dupCount tr + 1)) (fst (flushTimerFunc m now tr)),
     []).
Proof.
intros Hs Ha He.
assert (K : stopped (fst (flushTimerFunc m now tr)) = false /\
            lastOutput (fst (flushTimerFunc m now tr)) = lastOutput tr /\
            dupCount (fst (flushTimerFunc m now tr)) = dupCount tr).
{ unfold flushTimerFunc. rewrite Hs.
  destruct (flush_keeps m tr) as (K1 & K2 & K3 & _).
  destruct (flush m tr) as [tr1 out]. simpl in *.
  rewrite K1, K2, K3. now repeat split. }
destruct K as (K1 & K2 & K3).
rewrite (RecordOutput_repeat m _ now' data K1 Ha); [|congruence].
now rewrite K3.
Qed.
End Facts.

(** *** Concrete runs *)

(** A stand-in for [json.Marshal] whose lines hold no line feed: the text
    without its line feeds. *)
Definition flatMarshal (e : TranscriptEntry) : option bytes :=
  Some (filter (fun c => negb (Byte.eqb c LF)) (Text e)).

Lemma flatMarshal_no_LF e j : flatMarshal e = Some j -> ~ In LF j.
Proof.
intros E H. injection E as <-. apply filter_In in H as [_ H].
now rewrite eqb_refl in H.
Qed.

Lemma serialize_one_line_per_entry_witness :
  count_occ byte_eq_dec
    (serialize flatMarshal
       [mkEntry 0 (lit "input") (lit "a" ++ [LF]);
        mkEntry 1 (lit "output") (lit "b")]) LF
  = 2%nat.
Proof.
exact (proj1 (serialize_one_line_per_entry flatMarshal
                [mkEntry 0 (lit "input") (lit "a" ++ [LF]);
                 mkEntry 1 (lit "output") (lit "b")] []
                flatMarshal_no_LF)).
Defined.

Lemma bufferBytes_below_threshold_witness :
  0 <= bufferBytes
         (fst (run demoMarshal
                 [(unixEpoch, EvRecordInput (lit "ls"));
                  (unixEpoch + Second, EvRecordOutput (lit "done"))]
                 freshRec))
    < TranscriptFlushThreshold.
Proof.
apply (bufferBytes_below_threshold demoMarshal unixEpoch (Some keep)
         [(unixEpoch, EvRecordInput (lit "ls"));
          (unixEpoch + Second, EvRecordOutput (lit "done"))]).
repeat constructor; vm_compute; discriminate.
Defined.

Lemma transcript_complete_and_ordered_witness :
  exists batches,
    snd (run demoMarshal
           ([(unixEpoch, EvRecordInput (lit "ls"));
             (unixEpoch + Second, EvRecordOutput (lit "done"));
             (unixEpoch + 5 * Second, EvFlushTimer);
             (unixEpoch + 6 * Second, EvRecordInput (lit "q"))]
            ++ [(unixEpoch + 7 * Second, EvStop)]) freshRec)
    = map keep batches /\
    concat batches
    = serialize demoMarshal (buffer freshRec) ++
      serialize demoMarshal
        (entriesOf
           [(unixEpoch, EvRecordInput (lit "ls"));
            (unixEpoch + Second, EvRecordOutput (lit "done"));
            (unixEpoch + 5 * Second, EvFlushTimer);
            (unixEpoch + 6 * Second, EvRecordInput (lit "q"))]).
Proof.
apply (transcript_complete_and_ordered demoMarshal freshRec keep
         [(unixEpoch, EvRecordInput (lit "ls"));
          (unixEpoch + Second, EvRecordOutput (lit "done"));
          (unixEpoch + 5 * Second, EvFlushTimer);
          (unixEpoch + 6 * Second, EvRecordInput (lit "q"))]
         (unixEpoch + 7 * Second)).
- reflexivity.
- reflexivity.
- vm_compute; discriminate.
- repeat constructor.
Defined.

(** A recorder that has just stored the frame "50%". *)
Definition atHalf : TranscriptRecorder bytes :=
  fst (RecordOutput demoMarshal unixEpoch (lit "50%") freshRec).

Lemma repeats_continue_after_flush_witness :
  RecordOutput demoMarshal (unixEpoch + 6 * Second) (lit "50%")
    (fst (flushTimerFunc demoMarshal (unixEpoch + 5 * Second) atHalf))
  = (with_dupCount 1
       (fst (flushTimerFunc demoMarshal (unixEpoch + 5 * Second) atHalf)),
     []).
Proof.
apply (repeats_continue_after_flush demoMarshal atHalf
         (unixEpoch + 5 * Second) (unixEpoch + 6 * Second) (lit "50%"));
  reflexivity.
Defined.

End RecorderRunFacts.
